(** * civogo disk images: catalogue listing, lookup and version selection

    A shallow embedding of [disk_image.go]: [ListDiskImages],
    [GetDiskImage], [FindDiskImage], [GetDiskImageByName] and
    [GetMostRecentDistro], together with the parts of Go's [strings]
    package and of [golang.org/x/mod/semver] they call.

    Go strings are byte sequences: they are Rocq [string]s, one [ascii]
    per byte.  A Go [(value, error)] result is a pair whose second
    component is [None] for a nil error; a [*DiskImage] is an
    [option DiskImage], [None] being the nil pointer. *)

From Stdlib Require Import ZArith Lia List Bool Ascii String.
Import ListNotations.

Local Open Scope string_scope.
Local Open Scope Z_scope.

(* ================================================================== *)
(** * Package [strings] *)

Module strings.

(** [strings.HasPrefix(s, prefix)]. *)
Fixpoint HasPrefix (s prefix : string) : bool :=
  match prefix, s with
  | EmptyString, _ => true
  | String _ _, EmptyString => false
  | String p prefix', String c s' => Ascii.eqb c p && HasPrefix s' prefix'
  end.

(** The scan behind [strings.Index]: the first offset, counted from
    [i], at which [substr] starts in [s], or [-1]. *)
Fixpoint indexFrom (i : Z) (s substr : string) : Z :=
  if HasPrefix s substr then i
  else match s with
       | EmptyString => -1
       | String _ s' => indexFrom (i + 1) s' substr
       end.

(** [strings.Index(s, substr)]. *)
Definition Index (s substr : string) : Z := indexFrom 0 s substr.

(** [strings.Contains(s, substr)] is [Index(s, substr) >= 0]. *)
Definition Contains (s substr : string) : bool := 0 <=? Index s substr.

End strings.

(* ================================================================== *)
(** * Package [golang.org/x/mod/semver] *)

Module semver.

(** Go slices of a string: [v[:i]], [v[i:]] and [v[a:b]]. *)
Fixpoint sliceTo (i : nat) (v : string) : string :=
  match i, v with
  | S i', String c v' => String c (sliceTo i' v')
  | _, _ => EmptyString
  end.

Fixpoint sliceFrom (i : nat) (v : string) : string :=
  match i, v with
  | S i', String _ v' => sliceFrom i' v'
  | _, _ => v
  end.

Definition slice (a b : nat) (v : string) : string :=
  sliceTo (b - a) (sliceFrom a v).

(** [for i < len(v) && p(v[i]) { i++ }], started with [rest = v[i:]];
    the value of [i] when the loop stops. *)
Fixpoint scanWhile (p : ascii -> bool) (rest : string) (i : nat) : nat :=
  match rest with
  | String c rest' => if p c then scanWhile p rest' (S i) else i
  | EmptyString => i
  end.

Definition isDigit (c : ascii) : bool :=
  Ascii.leb "0" c && Ascii.leb c "9".

Definition isIdentChar (c : ascii) : bool :=
  (Ascii.leb "A" c && Ascii.leb c "Z")
  || (Ascii.leb "a" c && Ascii.leb c "z")
  || (Ascii.leb "0" c && Ascii.leb c "9")
  || Ascii.eqb c "-".

Definition isBadNum (v : string) : bool :=
  let i := scanWhile isDigit v 0 in
  Nat.eqb i (String.length v) && Nat.ltb 1 i
  && match v with String c _ => Ascii.eqb c "0" | EmptyString => false end.

Definition isNum (v : string) : bool :=
  Nat.eqb (scanWhile isDigit v 0) (String.length v).

Record parsed : Type := mkParsed {
  major : string;
  minor : string;
  patch : string;
  short : string;
  prerelease : string;
  build : string
}.

(** [parseInt(v)] returns [(t, rest, ok)]; [None] stands for [!ok]. *)
Definition parseInt (v : string) : option (string * string) :=
  match v with
  | EmptyString => None
  | String c0 _ =>
      if negb (isDigit c0) then None
      else
        let i := scanWhile isDigit (sliceFrom 1 v) 1 in
        if Ascii.eqb c0 "0" && negb (Nat.eqb i 1) then None
        else Some (sliceTo i v, sliceFrom i v)
  end.

(** The loop of [parsePrerelease], entered with [rest = v[i:]]; it
    gives the final [(i, start)], or [None] where the Go code returns
    early. *)
Fixpoint prereleaseLoop (v rest : string) (i start : nat)
  : option (nat * nat) :=
  match rest with
  | EmptyString => Some (i, start)
  | String c rest' =>
      if Ascii.eqb c "+" then Some (i, start)
      else if negb (isIdentChar c) && negb (Ascii.eqb c ".") then None
      else if Ascii.eqb c "." then
        if Nat.eqb start i || isBadNum (slice start i v) then None
        else prereleaseLoop v rest' (S i) (S i)
      else prereleaseLoop v rest' (S i) start
  end.

Definition parsePrerelease (v : string) : option (string * string) :=
  match v with
  | EmptyString => None
  | String c0 _ =>
      if negb (Ascii.eqb c0 "-") then None
      else
        match prereleaseLoop v (sliceFrom 1 v) 1 1 with
        | None => None
        | Some (i, start) =>
            if Nat.eqb start i || isBadNum (slice start i v) then None
            else Some (sliceTo i v, sliceFrom i v)
        end
  end.

(** The loop of [parseBuild]. *)
Fixpoint buildLoop (rest : string) (i start : nat) : option (nat * nat) :=
  match rest with
  | EmptyString => Some (i, start)
  | String c rest' =>
      if negb (isIdentChar c) && negb (Ascii.eqb c ".") then None
      else if Ascii.eqb c "." then
        if Nat.eqb start i then None
        else buildLoop rest' (S i) (S i)
      else buildLoop rest' (S i) start
  end.

Definition parseBuild (v : string) : option (string * string) :=
  match v with
  | EmptyString => None
  | String c0 _ =>
      if negb (Ascii.eqb c0 "+") then None
      else
        match buildLoop (sliceFrom 1 v) 1 1 with
        | None => None
        | Some (i, start) =>
            if Nat.eqb start i then None
            else Some (sliceTo i v, sliceFrom i v)
        end
  end.

Definition startsWith (c : ascii) (v : string) : bool :=
  match v with String c0 _ => Ascii.eqb c0 c | EmptyString => false end.

(** The tail of [parse], after the patch number has been read. *)
Definition parseSuffix (ma mi pa v : string) : option parsed :=
  let afterPre :=
    if startsWith "-" v then
      match parsePrerelease v with
      | None => None
      | Some (pre, v') => Some (pre, v')
      end
    else Some (EmptyString, v) in
  match afterPre with
  | None => None
  | Some (pre, v) =>
      let afterBuild :=
        if startsWith "+" v then
          match parseBuild v with
          | None => None
          | Some (b, v') => Some (b, v')
          end
        else Some (EmptyString, v) in
      match afterBuild with
      | None => None
      | Some (b, v) =>
          if negb (String.eqb v "") then None
          else Some (mkParsed ma mi pa "" pre b)
      end
  end.

(** [parse(v)] returns [(p, ok)]; [None] stands for [!ok]. *)
Definition parse (v : string) : option parsed :=
  match v with
  | EmptyString => None
  | String c0 _ =>
      if negb (Ascii.eqb c0 "v") then None
      else
        match parseInt (sliceFrom 1 v) with
        | None => None
        | Some (ma, v) =>
            if String.eqb v "" then Some (mkParsed ma "0" "0" ".0.0" "" "")
            else if negb (startsWith "." v) then None
            else
              match parseInt (sliceFrom 1 v) with
              | None => None
              | Some (mi, v) =>
                  if String.eqb v "" then Some (mkParsed ma mi "0" ".0" "" "")
                  else if negb (startsWith "." v) then None
                  else
                    match parseInt (sliceFrom 1 v) with
                    | None => None
                    | Some (pa, v) => parseSuffix ma mi pa v
                    end
              end
        end
  end.

(** [semver.IsValid(v)]. *)
Definition IsValid (v : string) : bool :=
  match parse v with Some _ => true | None => false end.

(** Go's [x < y] on strings: bytewise lexical order. *)
Definition strLess (x y : string) : bool := String.ltb x y.

Definition compareInt (x y : string) : Z :=
  if String.eqb x y then 0
  else if Nat.ltb (String.length x) (String.length y) then -1
  else if Nat.ltb (String.length y) (String.length x) then 1
  else if strLess x y then -1 else 1.

Definition nextIdent (x : string) : string * string :=
  let i := scanWhile (fun c => negb (Ascii.eqb c ".")) x 0 in
  (sliceTo i x, sliceFrom i x).

(** What [comparePrerelease] returns from inside its loop when the two
    identifiers differ. *)
Definition compareIdent (dx dy : string) : Z :=
  let ix := isNum dx in
  let iy := isNum dy in
  if negb (Bool.eqb ix iy) then (if ix then -1 else 1)
  else if ix && Nat.ltb (String.length dx) (String.length dy) then -1
  else if ix && Nat.ltb (String.length dy) (String.length dx) then 1
  else if strLess dx dy then -1 else 1.

(** The loop [for x != "" && y != ""] of [comparePrerelease] with the
    return that follows it.  Every iteration drops at least one byte
    of [x], so [String.length x] iterations are enough; [None] is
    the loop stopped for lack of iterations. *)
Fixpoint prereleaseCompareLoop (fuel : nat) (x y : string) : option Z :=
  if negb (String.eqb x "") && negb (String.eqb y "") then
    match fuel with
    | O => None
    | S fuel' =>
        let x := sliceFrom 1 x in
        let y := sliceFrom 1 y in
        let '(dx, x) := nextIdent x in
        let '(dy, y) := nextIdent y in
        if negb (String.eqb dx dy) then Some (compareIdent dx dy)
        else prereleaseCompareLoop fuel' x y
    end
  else if String.eqb x "" then Some (-1) else Some 1.

Definition comparePrerelease (x y : string) : Z :=
  if String.eqb x y then 0
  else if String.eqb x "" then 1
  else if String.eqb y "" then -1
  else match prereleaseCompareLoop (String.length x) x y with
       | Some c => c
       | None => 0
       end.

(** [semver.Compare(v, w)]. *)
Definition Compare (v w : string) : Z :=
  match parse v, parse w with
  | None, None => 0
  | None, Some _ => -1
  | Some _, None => 1
  | Some pv, Some pw =>
      let c := compareInt (major pv) (major pw) in
      if negb (c =? 0) then c
      else
        let c := compareInt (minor pv) (minor pw) in
        if negb (c =? 0) then c
        else
          let c := compareInt (patch pv) (patch pw) in
          if negb (c =? 0) then c
          else comparePrerelease (prerelease pv) (prerelease pw)
  end.

End semver.

(* ================================================================== *)
(** * Package [civogo]: data model *)

(** [time.Time], by its three fields. *)
Record Time : Type := mkTime {
  wall : Z;
  ext : Z;
  loc : option string
}.

Definition zeroTime : Time := mkTime 0 0 None.

(** [DiskImage] represents a serialized structure. *)
Record DiskImage : Type := mkDiskImage {
  ID : string;
  Name : string;
  Version : string;
  State : string;
  InitialUser : string;
  Distribution : string;
  OS : string;
  Description : string;
  Label : string;
  DiskImageURL : string;
  DiskImageSizeBytes : Z;
  LogoURL : string;
  CreatedAt : Time;
  CreatedBy : string;
  DistributionDefault : bool
}.

(** [DiskImage{}], every field at its zero value. *)
Definition zeroDiskImage : DiskImage :=
  mkDiskImage "" "" "" "" "" "" "" "" "" "" 0 "" zeroTime "" false.

(** Modelled from the spec: the sentinel errors [MultipleMatchesError]
    and [ZeroMatchesError] and their [wrap] method are declared outside
    [disk_image.go]; an error built by [wrap] keeps the sentinel and
    the error it wraps. *)
Inductive constError : Type :=
| MultipleMatchesError
| ZeroMatchesError.

(** Non-nil Go [error] values, by the call that builds them. *)
Inductive error : Type :=
| transportError (msg : string)
| jsonSyntaxError (msg : string)
| jsonUnmarshalTypeError (value type : string)
| errors_New (text : string)
| fmt_Errorf (text : string)
| wrapError (msg : constError) (err : error).

(** ** Response bodies *)

(** A JSON object as [encoding/json] reads it into a [DiskImage]: for
    each [json] tag of the struct the value the decoder stores in the
    field (it matches the keys without regard to case, and the last of
    several members wins), [None] when it stores none: no such member,
    or [null]. *)
Record jsonDiskImage : Type := mkJsonDiskImage {
  json_id : option string;
  json_name : option string;
  json_version : option string;
  json_state : option string;
  json_initial_user : option string;
  json_distribution : option string;
  json_os : option string;
  json_description : option string;
  json_label : option string;
  json_disk_image_url : option string;
  json_disk_image_size_bytes : option Z;
  json_logo_url : option string;
  json_created_at : option Time;
  json_created_by : option string;
  json_distribution_default : option bool
}.

(** The JSON object [{}]. *)
Definition emptyObject : jsonDiskImage :=
  mkJsonDiskImage None None None None None None None None None None
                  None None None None None.

(** The bytes of a response body, kept by what [encoding/json] reads in
    them: text on which [Decode] reports [e] (not JSON, or a value of
    the wrong type for its field), the value [null], one object, or an
    array of objects. *)
Inductive Body : Type :=
| Undecodable (e : error)
| Null
| Object (o : jsonDiskImage)
| Array (os : list jsonDiskImage).

Definition member {A : Type} (m : option A) (zero : A) : A :=
  match m with Some a => a | None => zero end.

(** Decoding one object into a zero [DiskImage]: a member that is
    present sets its field, the other fields stay at their zero
    value. *)
Definition decodeObject (o : jsonDiskImage) : DiskImage :=
  mkDiskImage
    (member (json_id o) "")
    (member (json_name o) "")
    (member (json_version o) "")
    (member (json_state o) "")
    (member (json_initial_user o) "")
    (member (json_distribution o) "")
    (member (json_os o) "")
    (member (json_description o) "")
    (member (json_label o) "")
    (member (json_disk_image_url o) "")
    (member (json_disk_image_size_bytes o) 0)
    (member (json_logo_url o) "")
    (member (json_created_at o) zeroTime)
    (member (json_created_by o) "")
    (member (json_distribution_default o) false).

(** [json.NewDecoder(bytes.NewReader(resp)).Decode(&diskImages)] with
    [diskImages] of type [[]DiskImage].  What is left in [diskImages]
    when an error is reported is not kept: the callers drop it. *)
Definition decodeDiskImages (resp : Body) : list DiskImage * option error :=
  match resp with
  | Undecodable e => ([], Some e)
  | Null => ([], None)
  | Object _ =>
      ([], Some (jsonUnmarshalTypeError "object" "[]civogo.DiskImage"))
  | Array os => (map decodeObject os, None)
  end.

(** [json.NewDecoder(bytes.NewReader(resp)).Decode(&diskImage)] with
    [diskImage] a [*DiskImage] that points to a zero [DiskImage]; the
    value [null] sets the pointer to nil.  What is left behind the
    pointer when an error is reported is not kept: the caller drops
    it. *)
Definition decodeDiskImage (resp : Body) : option DiskImage * option error :=
  match resp with
  | Undecodable e => (Some zeroDiskImage, Some e)
  | Null => (None, None)
  | Object o => (Some (decodeObject o), None)
  | Array _ =>
      (Some zeroDiskImage,
       Some (jsonUnmarshalTypeError "array" "civogo.DiskImage"))
  end.

(** The client, by the one method [disk_image.go] calls to read:
    [SendGetRequest(url)] returns [(body, error)]. *)
Record Client : Type := mkClient {
  SendGetRequest : string -> Body * option error
}.

(** ** Go's [int] *)

Definition maxInt : Z := 2 ^ 63 - 1.

(** [n] brought back into the range of a 64-bit [int]. *)
Definition wrapInt (n : Z) : Z := (n + 2 ^ 63) mod 2 ^ 64 - 2 ^ 63.

(* ================================================================== *)
(** * Package [civogo]: the operations of [disk_image.go] *)

Section Operations.

(** [decodeError], the error classification helper, is declared
    outside [disk_image.go]: it is a parameter. *)
Variable decodeError : error -> option error.

(** The filter of [ListDiskImages]: what the loop body does with one
    decoded entry. *)
Definition appendUnlessReserved (filteredDiskImages : list DiskImage)
           (diskImage : DiskImage) : list DiskImage :=
  if negb (strings.Contains (Name diskImage) "k3s")
     && negb (strings.Contains (Name diskImage) "talos")
  then filteredDiskImages ++ [diskImage]
  else filteredDiskImages.

(** [ListDiskImages] return all disk image in system; [includeCustom]
    is the variadic argument. *)
Definition ListDiskImages (c : Client) (includeCustom : list bool)
  : list DiskImage * option error :=
  let includeCustomFlag :=
    match includeCustom with
    | b :: _ => b
    | [] => false
    end in
  let url := "/v2/disk_images" in
  let url := if includeCustomFlag then url ++ "?type=custom" else url in
  let '(resp, err) := SendGetRequest c url in
  match err with
  | Some err => ([], decodeError err)
  | None =>
      let '(diskImages, err) := decodeDiskImages resp in
      match err with
      | Some err => ([], Some err)
      | None => (fold_left appendUnlessReserved diskImages [], None)
      end
  end.

(** [GetDiskImage] get one disk image using the id. *)
Definition GetDiskImage (c : Client) (id : string)
  : option DiskImage * option error :=
  let '(resp, err) := SendGetRequest c ("/v2/disk_images/" ++ id) in
  match err with
  | Some err => (None, decodeError err)
  | None =>
      let '(diskImage, err) := decodeDiskImage resp in
      match err with
      | Some err => (None, Some err)
      | None => (diskImage, None)
      end
  end.

(** The three variables the loop of [FindDiskImage] updates. *)
Record findState : Type := mkFindState {
  exactMatch : bool;
  partialMatchesCount : Z;
  result : DiskImage
}.

(** One iteration of the loop of [FindDiskImage]. *)
Definition findStep (search : string) (st : findState) (value : DiskImage)
  : findState :=
  if String.eqb (Name value) search || String.eqb (ID value) search then
    mkFindState true (partialMatchesCount st) value
  else if strings.Contains (Name value) search
          || strings.Contains (ID value) search then
    if negb (exactMatch st) then
      mkFindState (exactMatch st) (wrapInt (partialMatchesCount st + 1)) value
    else st
  else st.

(** [FindDiskImage] finds a disk image by either part of the ID or
    part of the name. *)
Definition FindDiskImage (c : Client) (search : string)
  : option DiskImage * option error :=
  let '(templateList, err) := ListDiskImages c [] in
  match err with
  | Some err => (None, decodeError err)
  | None =>
      let st :=
        fold_left (findStep search) templateList
                  (mkFindState false 0 zeroDiskImage) in
      if exactMatch st || (partialMatchesCount st =? 1) then
        (Some (result st), None)
      else if partialMatchesCount st >? 1 then
        let err :=
          fmt_Errorf ("unable to find " ++ search
                      ++ " because there were multiple matches") in
        (None, Some (wrapError MultipleMatchesError err))
      else
        let err :=
          fmt_Errorf ("unable to find " ++ search ++ ", zero matches") in
        (None, Some (wrapError ZeroMatchesError err))
  end.

(** The loop of [GetDiskImageByName]: it returns from inside at the
    first entry whose name is [name]. *)
Fixpoint firstNamed (name : string) (resp : list DiskImage)
  : option DiskImage :=
  match resp with
  | [] => None
  | diskimage :: resp' =>
      if String.eqb (Name diskimage) name then Some diskimage
      else firstNamed name resp'
  end.

(** [GetDiskImageByName] finds the DiskImage for an account with the
    specified code. *)
Definition GetDiskImageByName (c : Client) (name : string)
  : option DiskImage * option error :=
  let '(resp, err) := ListDiskImages c [] in
  match err with
  | Some err => (None, decodeError err)
  | None =>
      match firstNamed name resp with
      | Some diskimage => (Some diskimage, None)
      | None => (None, Some (errors_New "diskimage not found"))
      end
  end.

(** How the range clause of a [for] statement declares its variable:
    a new one at every iteration (Go 1.22 and later) or one for the
    whole loop (before).  The [go] line of the module decides, and it
    is not in [disk_image.go]. *)
Inductive loopVariables : Type :=
| PerIteration
| PerLoop.

(** The memory the loop of [GetMostRecentDistro] works on: the
    [diskimage] variables there are, a variable being addressed by its
    position, and the pointer [highestVersionDistro], [None] for
    nil. *)
Record distroState : Type := mkDistroState {
  diskimageVars : list DiskImage;
  highestVersionDistro : option nat
}.

(** [*p] for a pointer [p] to a [diskimage] variable. *)
Definition deref (vars : list DiskImage) (p : nat) : DiskImage :=
  nth p vars zeroDiskImage.

(** One iteration of the loop of [GetMostRecentDistro].  The range
    clause stores the entry in [diskimage], a new variable or the one
    variable of the loop; the body reads [diskimage] and
    [*highestVersionDistro] from the memory and may store
    [&diskimage] in [highestVersionDistro]. *)
Definition distroIteration (rule : loopVariables) (name : string)
           (st : distroState) (entry : DiskImage) : distroState :=
  let '(vars, addr) :=
    match rule with
    | PerIteration =>
        ((diskimageVars st ++ [entry])%list, List.length (diskimageVars st))
    | PerLoop => ([entry], O)
    end in
  let diskimage := deref vars addr in
  if strings.Contains (Name diskimage) name then
    match highestVersionDistro st with
    | None => mkDistroState vars (Some addr)
    | Some p =>
        if semver.Compare (Version (deref vars p)) (Version diskimage) <? 0
        then mkDistroState vars (Some addr)
        else mkDistroState vars (Some p)
    end
  else mkDistroState vars (highestVersionDistro st).

(** [GetMostRecentDistro] finds the highest version of a specified
    distro. *)
Definition GetMostRecentDistro (rule : loopVariables) (c : Client)
           (name : string) : option DiskImage * option error :=
  let '(resp, err) := ListDiskImages c [] in
  match err with
  | Some err => (None, decodeError err)
  | None =>
      let st :=
        fold_left (distroIteration rule name) resp (mkDistroState [] None) in
      match highestVersionDistro st with
      | None => (None, Some (fmt_Errorf (name ++ " image not found")))
      | Some p => (Some (deref (diskimageVars st) p), None)
      end
  end.

End Operations.

(* ================================================================== *)
(** * Package [civogo]: creating and deleting *)

(** [CreateDiskImageParams] represents the parameters for creating a
    new disk image. *)
Module CreateDiskImageParams.
Record t : Type := mk {
  Name : string;
  Distribution : string;
  Version : string;
  Source : string;
  OS : string;
  InitialUser : string;
  Region : string;
  ImageSHA256 : string;
  ImageMD5 : string;
  LogoBase64 : string;
  ImageSizeBytes : Z
}.
End CreateDiskImageParams.

(** [CreateDiskImageResponse] represents the response from creating a
    new disk image. *)
Module CreateDiskImageResponse.
Record t : Type := mk {
  ID : string;
  Name : string;
  Distribution : string;
  Version : string;
  OS : string;
  Region : string;
  Status : string;
  InitialUser : string;
  DiskImageURL : string;
  DiskImageSizeBytes : Z;
  LogoURL : string;
  ImageSize : Z;
  CreatedAt : Time;
  CreatedBy : string;
  DistributionDefault : bool
}.

(** [CreateDiskImageResponse{}]. *)
Definition zero : t :=
  mk "" "" "" "" "" "" "" "" "" 0 "" 0 zeroTime "" false.
End CreateDiskImageResponse.

(** A JSON object read into a [CreateDiskImageResponse]: one entry per
    [json] tag of the struct, [None] for a member that is absent or
    [null]. *)
Record jsonCreateResponse : Type := mkJsonCreateResponse {
  created_id : option string;
  created_name : option string;
  created_distribution : option string;
  created_version : option string;
  created_os : option string;
  created_region : option string;
  created_status : option string;
  created_initial_user : option string;
  created_disk_image_url : option string;
  created_disk_image_size_bytes : option Z;
  created_logo_url : option string;
  created_image_size : option Z;
  created_created_at : option Time;
  created_created_by : option string;
  created_distribution_default : option bool
}.

(** The bytes of the answer to a creation, kept by what
    [encoding/json] reads in them: text on which [Decode] reports [e],
    the value [null], one object, or an array. *)
Inductive CreateBody : Type :=
| CreateUndecodable (e : error)
| CreateNull
| CreateObject (o : jsonCreateResponse)
| CreateArray.

Definition decodeCreateObject (o : jsonCreateResponse)
  : CreateDiskImageResponse.t :=
  CreateDiskImageResponse.mk
    (member (created_id o) "")
    (member (created_name o) "")
    (member (created_distribution o) "")
    (member (created_version o) "")
    (member (created_os o) "")
    (member (created_region o) "")
    (member (created_status o) "")
    (member (created_initial_user o) "")
    (member (created_disk_image_url o) "")
    (member (created_disk_image_size_bytes o) 0)
    (member (created_logo_url o) "")
    (member (created_image_size o) 0)
    (member (created_created_at o) zeroTime)
    (member (created_created_by o) "")
    (member (created_distribution_default o) false).

(** [json.NewDecoder(bytes.NewReader(resp)).Decode(&diskImage)] with
    [diskImage] a [*CreateDiskImageResponse] that points to a zero
    value; the value [null] sets the pointer to nil.  What is left
    behind the pointer when an error is reported is not kept: the
    caller drops it. *)
Definition decodeCreateResponse (resp : CreateBody)
  : option CreateDiskImageResponse.t * option error :=
  match resp with
  | CreateUndecodable e => (Some CreateDiskImageResponse.zero, Some e)
  | CreateNull => (None, None)
  | CreateObject o => (Some (decodeCreateObject o), None)
  | CreateArray =>
      (Some CreateDiskImageResponse.zero,
       Some (jsonUnmarshalTypeError "array" "civogo.CreateDiskImageResponse"))
  end.

(** The client, by the two methods [disk_image.go] calls to write:
    [SendPostRequest(url, params)], whose second argument is here a
    [*CreateDiskImageParams] ([None] being nil), and
    [SendDeleteRequest(url)]; both return [(body, error)]. *)
Record ClientWrites : Type := mkClientWrites {
  SendPostRequest :
    string -> option CreateDiskImageParams.t -> CreateBody * option error;
  SendDeleteRequest : string -> list Byte.byte * option error
}.

Section Writes.

(** [decodeError], as in the reading operations. *)
Variable decodeError : error -> option error.

(** [CreateDiskImage] creates a new disk image entry and returns a
    pre-signed URL for uploading. *)
Definition CreateDiskImage (c : ClientWrites)
           (params : option CreateDiskImageParams.t)
  : option CreateDiskImageResponse.t * option error :=
  let url := "/v2/disk_images" in
  let '(resp, err) := SendPostRequest c url params in
  match err with
  | Some err => (None, decodeError err)
  | None =>
      let '(diskImage, err) := decodeCreateResponse resp in
      match err with
      | Some err => (None, Some err)
      | None => (diskImage, None)
      end
  end.

(** [DeleteDiskImage] deletes a disk image by its ID. *)
Definition DeleteDiskImage (c : ClientWrites) (id : string) : option error :=
  let '(_, err) := SendDeleteRequest c ("/v2/disk_images/" ++ id) in
  match err with
  | Some err => decodeError err
  | None => None
  end.

End Writes.

(** ** Fixtures *)

(** A JSON object with the three members the lookups read. *)
Definition imageObject (id name version : string) : jsonDiskImage :=
  mkJsonDiskImage (Some id) (Some name) (Some version) None None None None
                  None None None None None None None None.

(** The [DiskImage] decoded from it. *)
Definition image (id name version : string) : DiskImage :=
  decodeObject (imageObject id name version).

(** A client whose every request is answered by the array [os]. *)
Definition serving (os : list jsonDiskImage) : Client :=
  mkClient (fun _ => (Array os, None)).

(** A client whose every request is answered by the object [o]. *)
Definition servingOne (o : jsonDiskImage) : Client :=
  mkClient (fun _ => (Object o, None)).

Definition ubuntuObjects : list jsonDiskImage :=
  [imageObject "id-bionic" "ubuntu-bionic" "v18.4.0";
   imageObject "id-focal" "ubuntu-focal" "v20.4.0";
   imageObject "id-k3s" "k3s-v1.2" "v1.2.0";
   imageObject "id-alpine" "alpine-3" "v3.0.0"].

Definition debianObjects : list jsonDiskImage :=
  [imageObject "id-a" "debian" "v1.2.0";
   imageObject "id-b" "debian" "v1.10.0";
   imageObject "id-c" "debian-next" "v1.10.0+build.7";
   imageObject "id-d" "centos" "v7.0.0"].



(* ================================================================== *)
(** * Vocabulary of the properties *)

(** [search] equals the name or the ID of [d]: the first test of the
    loop of [FindDiskImage]. *)
Definition isExact (search : string) (d : DiskImage) : bool :=
  String.eqb (Name d) search || String.eqb (ID d) search.

(** [search] is a substring of the name or of the ID of [d]: the second
    test of the loop of [FindDiskImage]. *)
Definition isPartial (search : string) (d : DiskImage) : bool :=
  strings.Contains (Name d) search || strings.Contains (ID d) search.

(** The name of [d] has neither of the two reserved substrings. *)
Definition notReserved (d : DiskImage) : bool :=
  negb (strings.Contains (Name d) "k3s")
  && negb (strings.Contains (Name d) "talos").

(** The loop of [GetMostRecentDistro] with a variable per iteration,
    seen on values: no variable is written twice, so the candidate is
    followed by the value of the variable its pointer was taken
    from. *)
Definition distroStep (name : string) (candidate : option DiskImage)
           (diskimage : DiskImage) : option DiskImage :=
  if strings.Contains (Name diskimage) name then
    match candidate with
    | None => Some diskimage
    | Some highest =>
        if semver.Compare (Version highest) (Version diskimage) <? 0
        then Some diskimage
        else candidate
    end
  else candidate.

(** [r] is, among the entries of [l] whose name contains [name], the
    first one of greatest version. *)
Definition firstGreatest (name : string) (l : list DiskImage)
           (r : DiskImage) : Prop :=
  exists pre post,
    l = (pre ++ r :: post)%list
    /\ strings.Contains (Name r) name = true
    /\ (forall e, In e l -> strings.Contains (Name e) name = true ->
                  semver.Compare (Version e) (Version r) <= 0)
    /\ (forall e, In e pre -> strings.Contains (Name e) name = true ->
                  semver.Compare (Version e) (Version r) < 0).

(** ** Comparison functions *)

(** The comparison functions of [semver] return [-1], [0] or [+1].
    They are described here through keys compared by a few generic
    comparison functions, which is what their order properties are
    proved from. *)
Module order.

Definition natCmp (n m : nat) : Z :=
  if Nat.ltb n m then -1 else if Nat.ltb m n then 1 else 0.

Definition boolCmp (a b : bool) : Z := natCmp (Nat.b2n a) (Nat.b2n b).

Definition strCmp (x y : string) : Z :=
  match String.compare x y with
  | Lt => -1
  | Eq => 0
  | Gt => 1
  end.

(** Pairs, first component first. *)
Definition lexCmp {A B : Type} (c1 : A -> A -> Z) (c2 : B -> B -> Z)
           (p q : A * B) : Z :=
  if c1 (fst p) (fst q) =? 0 then c2 (snd p) (snd q)
  else c1 (fst p) (fst q).

(** Lists, first difference first, a proper prefix being lower. *)
Fixpoint listCmp {A : Type} (c : A -> A -> Z) (l1 l2 : list A) : Z :=
  match l1, l2 with
  | [], [] => 0
  | [], _ :: _ => -1
  | _ :: _, [] => 1
  | a :: l1', b :: l2' => if c a b =? 0 then listCmp c l1' l2' else c a b
  end.

(** Options with [None] below every [Some]. *)
Definition bottomCmp {A : Type} (c : A -> A -> Z) (o1 o2 : option A) : Z :=
  match o1, o2 with
  | None, None => 0
  | None, Some _ => -1
  | Some _, None => 1
  | Some a, Some b => c a b
  end.

(** Options with [None] above every [Some]. *)
Definition topCmp {A : Type} (c : A -> A -> Z) (o1 o2 : option A) : Z :=
  match o1, o2 with
  | None, None => 0
  | None, Some _ => 1
  | Some _, None => -1
  | Some a, Some b => c a b
  end.

(** A function [cmp] that compares along a total preorder. *)
Record Comparator {A : Type} (cmp : A -> A -> Z) : Prop := {
  cmp_range : forall x y, -1 <= cmp x y <= 1;
  cmp_refl : forall x, cmp x x = 0;
  cmp_opp : forall x y, cmp y x = - cmp x y;
  cmp_cong : forall x y z, cmp x y = 0 -> cmp x z = cmp y z;
  cmp_trans : forall x y z, cmp x y < 0 -> cmp y z < 0 -> cmp x z < 0
}.

(** The key of a number of a version: shorter is lower, then the
    bytes decide. *)
Definition intKey (x : string) : nat * string := (String.length x, x).

Definition intCmp (x y : string) : Z :=
  lexCmp natCmp strCmp (intKey x) (intKey y).

(** The key of an identifier of a pre-release: numeric identifiers
    are below the others and are compared as numbers. *)
Definition identKey (d : string) : bool * (nat * string) :=
  (negb (semver.isNum d),
   (if semver.isNum d then String.length d else O, d)).

Definition identCmp (d e : string) : Z :=
  lexCmp boolCmp (lexCmp natCmp strCmp) (identKey d) (identKey e).

(** The pieces of [r] between its dots. *)
Fixpoint splitDots (r : string) : list string :=
  match r with
  | EmptyString => [EmptyString]
  | String c r' =>
      if Ascii.eqb c "." then EmptyString :: splitDots r'
      else match splitDots r' with
           | d :: ds => String c d :: ds
           | [] => [String c EmptyString]
           end
  end.

(** The identifiers of a pre-release string, its first byte (the
    hyphen) dropped. *)
Definition idents (x : string) : list string :=
  match x with
  | EmptyString => []
  | String _ r => splitDots r
  end.

(** No pre-release is above any pre-release. *)
Definition prereleaseKey (x : string) : option (list string) :=
  match x with
  | EmptyString => None
  | String _ _ => Some (idents x)
  end.

Definition prereleaseCmp : option (list string) -> option (list string) -> Z :=
  topCmp (listCmp identCmp).

Definition versionKey (v : string)
  : option (string * (string * (string * option (list string)))) :=
  match semver.parse v with
  | None => None
  | Some p =>
      Some (semver.major p,
            (semver.minor p,
             (semver.patch p, prereleaseKey (semver.prerelease p))))
  end.

(** Invalid versions are equal to each other and below the valid
    ones; valid versions go by major, minor, patch and
    pre-release. *)
Definition versionCmp
  : option (string * (string * (string * option (list string)))) ->
    option (string * (string * (string * option (list string)))) -> Z :=
  bottomCmp (lexCmp intCmp (lexCmp intCmp (lexCmp intCmp prereleaseCmp))).

End order.


(* ================================================================== *)
(** * Properties of [strings] *)

Module stringsFacts.
Import strings.

Lemma HasPrefix_app (substr b : string) : HasPrefix (substr ++ b) substr = true.
Proof.
  induction substr as [|p substr IH]; simpl; [now destruct b|].
  now rewrite Ascii.eqb_refl, IH.
Qed.

Lemma HasPrefix_inv (s substr : string) :
  HasPrefix s substr = true -> exists b, s = substr ++ b.
Proof.
  revert s; induction substr as [|p substr IH]; intros s H.
  - now exists s.
  - destruct s as [|c s]; [discriminate|]. simpl in H.
    apply andb_true_iff in H as [Hc Hs].
    apply Ascii.eqb_eq in Hc; subst c.
    destruct (IH _ Hs) as [b ->]. now exists b.
Qed.

Lemma indexFrom_lower (s substr : string) (i : Z) :
  indexFrom i s substr = -1 \/ i <= indexFrom i s substr.
Proof.
  revert i; induction s as [|c s IH]; intros i; cbn [indexFrom].
  - destruct (HasPrefix "" substr); [right; lia | now left].
  - destruct (HasPrefix (String c s) substr); [right; lia|].
    destruct (IH (i + 1)) as [H|H]; [now left | right; lia].
Qed.

Lemma indexFrom_found (s substr : string) (i : Z) :
  0 <= i ->
  (0 <=? indexFrom i s substr) = true <->
  exists a b, s = a ++ substr ++ b.
Proof.
  revert i; induction s as [|c s IH]; intros i Hi; cbn [indexFrom].
  - destruct (HasPrefix "" substr) eqn:Hp.
    + split; [intros _ | intros _; now apply Z.leb_le].
      destruct (HasPrefix_inv _ _ Hp) as [b Hb]. now exists "", b.
    + split; [discriminate|].
      intros (a & b & Hab). exfalso.
      destruct a; [|discriminate]. simpl in Hab.
      rewrite Hab, HasPrefix_app in Hp. discriminate.
  - destruct (HasPrefix (String c s) substr) eqn:Hp.
    + split; [intros _ | intros _; now apply Z.leb_le].
      destruct (HasPrefix_inv _ _ Hp) as [b Hb]. now exists "", b.
    + rewrite (IH (i + 1)) by lia. split.
      * intros (a & b & ->). now exists (String c a), b.
      * intros (a & b & Hab). destruct a as [|c' a]; simpl in Hab.
        -- rewrite Hab, HasPrefix_app in Hp. discriminate.
        -- injection Hab as _ ->. now exists a, b.
Qed.

(** [Contains s substr] holds exactly when [substr] occurs in [s]. *)
Lemma Contains_spec (s substr : string) :
  Contains s substr = true <-> exists a b, s = a ++ substr ++ b.
Proof. unfold Contains, Index. apply indexFrom_found. lia. Qed.

Lemma Contains_empty (s : string) : Contains s "" = true.
Proof. apply Contains_spec. now exists "", s. Qed.

Lemma Contains_infix (a substr b : string) :
  Contains (a ++ substr ++ b) substr = true.
Proof. apply Contains_spec. now exists a, b. Qed.

Lemma Contains_self (s : string) : Contains s s = true.
Proof.
  apply Contains_spec. exists "", "". simpl.
  induction s as [|c s IH]; simpl; [reflexivity | now rewrite <- IH].
Qed.

End stringsFacts.

(* ================================================================== *)
(** * Properties of the catalogue operations *)

Lemma wrapInt_small (n : Z) : - 2 ^ 63 <= n <= maxInt -> wrapInt n = n.
Proof.
  unfold wrapInt, maxInt. intros H.
  rewrite Z.mod_small; lia.
Qed.

Section Listing.

Variable decodeError : error -> option error.

Lemma fold_appendUnlessReserved (l acc : list DiskImage) :
  fold_left appendUnlessReserved l acc = (acc ++ filter notReserved l)%list.
Proof.
  revert acc; induction l as [|d l IH]; intros acc; simpl.
  - now rewrite app_nil_r.
  - rewrite IH. unfold appendUnlessReserved, notReserved.
    destruct (negb (strings.Contains (Name d) "k3s")
              && negb (strings.Contains (Name d) "talos")).
    + now rewrite <- app_assoc.
    + reflexivity.
Qed.

Lemma notReserved_iff (d : DiskImage) :
  notReserved d = true <->
  strings.Contains (Name d) "k3s" = false
  /\ strings.Contains (Name d) "talos" = false.
Proof.
  unfold notReserved.
  rewrite andb_true_iff, !negb_true_iff. tauto.
Qed.

(** What [ListDiskImages] returns once the request and the decoding
    have succeeded. *)
Lemma ListDiskImages_ok (c : Client) (includeCustom : list bool)
      (resp : Body) (decoded : list DiskImage) :
  SendGetRequest c
    (if hd false includeCustom then "/v2/disk_images?type=custom"
     else "/v2/disk_images") = (resp, None) ->
  decodeDiskImages resp = (decoded, None) ->
  ListDiskImages decodeError c includeCustom
  = (filter notReserved decoded, None).
Proof.
  intros Hsend Hdec. unfold ListDiskImages.
  assert (Hurl :
    (if match includeCustom with b :: _ => b | [] => false end
     then "/v2/disk_images" ++ "?type=custom" else "/v2/disk_images")
    = (if hd false includeCustom then "/v2/disk_images?type=custom"
       else "/v2/disk_images")) by (destruct includeCustom; reflexivity).
  rewrite Hurl, Hsend, Hdec.
  now rewrite fold_appendUnlessReserved.
Qed.

(** Whatever the request and the decoding did, a list returned by
    [ListDiskImages] has no reserved name in it. *)
Lemma ListDiskImages_notReserved (c : Client) (includeCustom : list bool) :
  Forall (fun d => notReserved d = true)
         (fst (ListDiskImages decodeError c includeCustom)).
Proof.
  unfold ListDiskImages.
  destruct (SendGetRequest c _) as [resp [e|]]; simpl; [constructor|].
  destruct (decodeDiskImages resp) as [decoded [e|]]; simpl; [constructor|].
  rewrite fold_appendUnlessReserved. simpl.
  apply Forall_forall. intros d Hd.
  now apply filter_In in Hd.
Qed.

End Listing.

Lemma last_cons_default {A : Type} (l : list A) (a x y : A) :
  last (a :: l) x = last (a :: l) y.
Proof.
  revert a; induction l as [|b l IH]; intros a; [reflexivity|].
  change (last (b :: l) x = last (b :: l) y). apply IH.
Qed.

Section Finding.

Variable decodeError : error -> option error.
Variable search : string.

Lemma isExact_true (d : DiskImage) :
  isExact search d = true <-> Name d = search \/ ID d = search.
Proof.
  unfold isExact. now rewrite orb_true_iff, !String.eqb_eq.
Qed.

Lemma isExact_false (d : DiskImage) :
  isExact search d = false <-> Name d <> search /\ ID d <> search.
Proof.
  unfold isExact. now rewrite orb_false_iff, !String.eqb_neq.
Qed.

Lemma isPartial_true (d : DiskImage) :
  isPartial search d = true <->
  strings.Contains (Name d) search = true
  \/ strings.Contains (ID d) search = true.
Proof. unfold isPartial. now rewrite orb_true_iff. Qed.

Lemma isPartial_false (d : DiskImage) :
  isPartial search d = false <->
  strings.Contains (Name d) search = false
  /\ strings.Contains (ID d) search = false.
Proof. unfold isPartial. now rewrite orb_false_iff. Qed.

(** The loop body, by the two tests. *)
Lemma findStep_cases (st : findState) (value : DiskImage) :
  findStep search st value =
  if isExact search value then
    mkFindState true (partialMatchesCount st) value
  else if isPartial search value && negb (exactMatch st) then
    mkFindState (exactMatch st) (wrapInt (partialMatchesCount st + 1)) value
  else st.
Proof.
  unfold findStep, isExact, isPartial.
  destruct (_ || _); [reflexivity|].
  destruct (_ || _); [|reflexivity].
  now destruct (exactMatch st).
Qed.

(** Once an exact match is recorded, entries that are not exact
    matches leave the three variables as they are. *)
Lemma fold_findStep_sticky (post : list DiskImage) (st : findState) :
  exactMatch st = true ->
  Forall (fun e => isExact search e = false) post ->
  fold_left (findStep search) post st = st.
Proof.
  intros Hst Hpost. induction Hpost as [|e post He _ IH]; simpl.
  - reflexivity.
  - rewrite findStep_cases, He, Hst, andb_false_r. exact IH.
Qed.

(** The loop stopped right after an exact match [d]. *)
Lemma fold_findStep_exact (pre : list DiskImage) (d : DiskImage)
      (st : findState) :
  isExact search d = true ->
  exists n, fold_left (findStep search) (pre ++ [d]) st
            = mkFindState true n d.
Proof.
  intros Hd. rewrite fold_left_app. simpl.
  rewrite findStep_cases, Hd. eauto.
Qed.

(** Without any exact match the counter is the number of partial
    matches, and [result] is the last of them. *)
Lemma fold_findStep_partial (l : list DiskImage) (st : findState) :
  exactMatch st = false ->
  Forall (fun e => isExact search e = false) l ->
  0 <= partialMatchesCount st ->
  partialMatchesCount st
    + Z.of_nat (List.length (filter (isPartial search) l)) <= maxInt ->
  fold_left (findStep search) l st =
  mkFindState false
    (partialMatchesCount st
     + Z.of_nat (List.length (filter (isPartial search) l)))
    (last (filter (isPartial search) l) (result st)).
Proof.
  intros Hst Hl. revert st Hst.
  induction Hl as [|e l He _ IH]; intros st Hst H0 Hmax.
  - simpl. rewrite Z.add_0_r. destruct st; simpl in *. now subst.
  - cbn [fold_left filter] in *. rewrite findStep_cases, He, Hst.
    destruct (isPartial search e) eqn:Hp; cbn [andb negb].
    + cbn [List.length] in Hmax.
      assert (Hw : wrapInt (partialMatchesCount st + 1)
                   = partialMatchesCount st + 1).
      { apply wrapInt_small. unfold maxInt in *. lia. }
      rewrite Hw, IH; cbn [exactMatch partialMatchesCount result];
        [|reflexivity|lia|lia].
      f_equal; [cbn [List.length]; lia|].
      destruct (filter (isPartial search) l) as [|d l0];
        [reflexivity|].
      change (last (d :: l0) e = last (d :: l0) (result st)).
      apply last_cons_default.
    + now apply IH.
Qed.

(** An entry that satisfies [p] has a last such entry after it. *)
Lemma last_satisfying (p : DiskImage -> bool) (l : list DiskImage) :
  (exists e, In e l /\ p e = true) ->
  exists pre d post,
    l = (pre ++ d :: post)%list /\ p d = true
    /\ Forall (fun e => p e = false) post.
Proof.
  induction l as [|a l IH]; intros (e & Hin & He); [destruct Hin|].
  destruct (existsb p l) eqn:Hex.
  - apply existsb_exists in Hex.
    destruct (IH Hex) as (pre & d & post & -> & Hd & Hpost).
    now exists (a :: pre), d, post.
  - assert (Hall : Forall (fun e => p e = false) l).
    { apply Forall_forall. intros x Hx.
      destruct (p x) eqn:Hpx; [|reflexivity].
      rewrite <- Hex. symmetry. apply existsb_exists. eauto. }
    destruct Hin as [->|Hin].
    + now exists [], e, l.
    + rewrite Forall_forall in Hall. rewrite (Hall _ Hin) in He.
      discriminate.
Qed.

Lemma filter_none (p : DiskImage -> bool) (l : list DiskImage) :
  (forall e, In e l -> p e = false) -> filter p l = [].
Proof.
  induction l as [|a l IH]; intros H; [reflexivity|]. cbn [filter].
  rewrite (H a) by now left. apply IH. intros e He. apply H. now right.
Qed.

(** [FindDiskImage] once the catalogue has been listed. *)
Lemma FindDiskImage_listed (c : Client) (catalog : list DiskImage) :
  ListDiskImages decodeError c [] = (catalog, None) ->
  FindDiskImage decodeError c search =
  let st := fold_left (findStep search) catalog
                      (mkFindState false 0 zeroDiskImage) in
  if exactMatch st || (partialMatchesCount st =? 1) then
    (Some (result st), None)
  else if partialMatchesCount st >? 1 then
    (None, Some (wrapError MultipleMatchesError
       (fmt_Errorf ("unable to find " ++ search
                    ++ " because there were multiple matches"))))
  else
    (None, Some (wrapError ZeroMatchesError
       (fmt_Errorf ("unable to find " ++ search ++ ", zero matches")))).
Proof. intros H. unfold FindDiskImage. now rewrite H. Qed.

Lemma length_filter_le (p : DiskImage -> bool) (l : list DiskImage) :
  (List.length (filter p l) <= List.length l)%nat.
Proof.
  induction l as [|a l IH]; simpl; [lia|].
  destruct (p a); simpl; lia.
Qed.

(** Without an exact match and with two partial matches the decision
    after the loop is the multiple-matches error. *)
Lemma FindDiskImage_ambiguous (c : Client)
      (l1 l2 l3 : list DiskImage) (a b : DiskImage) :
  let catalog := (l1 ++ a :: l2 ++ b :: l3)%list in
  ListDiskImages decodeError c [] = (catalog, None) ->
  Z.of_nat (List.length catalog) <= maxInt ->
  Forall (fun e => isExact search e = false) catalog ->
  isPartial search a = true ->
  isPartial search b = true ->
  FindDiskImage decodeError c search
  = (None,
     Some (wrapError MultipleMatchesError
             (fmt_Errorf ("unable to find " ++ search
                          ++ " because there were multiple matches")))).
Proof.
  intros catalog Hlist Hlen Hall Ha Hb.
  pose proof (length_filter_le (isPartial search) catalog) as Hle.
  rewrite (FindDiskImage_listed _ _ Hlist).
  rewrite (fold_findStep_partial catalog
             (mkFindState false 0 zeroDiskImage) eq_refl Hall);
    cbn [partialMatchesCount result]; try lia.
  cbn zeta. cbn [exactMatch partialMatchesCount orb].
  assert (Hn : (2 <= List.length (filter (isPartial search) catalog))%nat).
  { unfold catalog. rewrite filter_app. cbn [filter].
    rewrite Ha, filter_app. cbn [filter]. rewrite Hb.
    rewrite length_app. cbn [List.length]. rewrite length_app.
    cbn [List.length]. lia. }
  destruct (_ =? 1) eqn:E1; [apply Z.eqb_eq in E1; lia|].
  destruct (_ >? 1) eqn:E2; [reflexivity|].
  rewrite Z.gtb_ltb in E2. apply Z.ltb_ge in E2. lia.
Qed.

End Finding.

(* ================================================================== *)
(** * Properties of the comparison functions *)

Module orderFacts.
Import order.

(** Case analysis on a test [t =? 0]. *)
Ltac case_zero t E :=
  destruct (t =? 0) eqn:E; [apply Z.eqb_eq in E | apply Z.eqb_neq in E].

Section Derived.
Context {A : Type} (cmp : A -> A -> Z) (C : Comparator cmp).

Lemma cmp_cong_r (x y z : A) : cmp y z = 0 -> cmp x y = cmp x z.
Proof.
  intros H.
  assert (Hzy : cmp z y = 0) by (rewrite (cmp_opp cmp C), H; reflexivity).
  pose proof (cmp_cong cmp C z y x Hzy) as E.
  pose proof (cmp_opp cmp C x y). pose proof (cmp_opp cmp C x z). lia.
Qed.

(** "Not above" is transitive. *)
Lemma cmp_le_trans (x y z : A) :
  cmp x y <= 0 -> cmp y z <= 0 -> cmp x z <= 0.
Proof.
  intros Hxy Hyz.
  destruct (Z.eq_dec (cmp x y) 0) as [E|E].
  - now rewrite (cmp_cong cmp C x y z E).
  - destruct (Z.eq_dec (cmp y z) 0) as [E'|E'].
    + now rewrite <- (cmp_cong_r x y z E').
    + assert (cmp x z < 0) by (apply (cmp_trans cmp C x y z); lia). lia.
Qed.

(** Strictly below, then not above, is strictly below. *)
Lemma cmp_lt_le_trans (x y z : A) :
  cmp x y < 0 -> cmp y z <= 0 -> cmp x z < 0.
Proof.
  intros Hxy Hyz.
  destruct (Z.eq_dec (cmp y z) 0) as [E'|E'].
  - now rewrite <- (cmp_cong_r x y z E').
  - apply (cmp_trans cmp C x y z); lia.
Qed.

(** Not above, then strictly below, is strictly below. *)
Lemma cmp_le_lt_trans (x y z : A) :
  cmp x y <= 0 -> cmp y z < 0 -> cmp x z < 0.
Proof.
  intros Hxy Hyz.
  destruct (Z.eq_dec (cmp x y) 0) as [E|E].
  - now rewrite (cmp_cong cmp C x y z E).
  - apply (cmp_trans cmp C x y z); lia.
Qed.

(** A comparison through a key is a comparison. *)
Lemma Comparator_map {B : Type} (key : B -> A) :
  Comparator (fun x y => cmp (key x) (key y)).
Proof.
  split; intros.
  - apply (cmp_range cmp C).
  - apply (cmp_refl cmp C).
  - apply (cmp_opp cmp C).
  - now apply (cmp_cong cmp C).
  - now apply (cmp_trans cmp C) with (y := key y).
Qed.

Lemma Comparator_bottom : Comparator (bottomCmp cmp).
Proof.
  split.
  - intros [x|] [y|]; simpl; try lia. apply (cmp_range cmp C).
  - intros [x|]; simpl; [apply (cmp_refl cmp C) | reflexivity].
  - intros [x|] [y|]; simpl; try lia. apply (cmp_opp cmp C).
  - intros [x|] [y|] [z|]; simpl; try lia; try reflexivity.
    apply (cmp_cong cmp C).
  - intros [x|] [y|] [z|]; simpl; try lia.
    apply (cmp_trans cmp C).
Qed.

Lemma Comparator_top : Comparator (topCmp cmp).
Proof.
  split.
  - intros [x|] [y|]; simpl; try lia. apply (cmp_range cmp C).
  - intros [x|]; simpl; [apply (cmp_refl cmp C) | reflexivity].
  - intros [x|] [y|]; simpl; try lia. apply (cmp_opp cmp C).
  - intros [x|] [y|] [z|]; simpl; try lia; try reflexivity.
    apply (cmp_cong cmp C).
  - intros [x|] [y|] [z|]; simpl; try lia.
    apply (cmp_trans cmp C).
Qed.

Lemma Comparator_list : Comparator (listCmp cmp).
Proof.
  split.
  - intros x; induction x as [|a x IH]; intros [|b y]; simpl; try lia.
    destruct (cmp a b =? 0); [apply IH | apply (cmp_range cmp C)].
  - intros x; induction x as [|a x IH]; simpl; [reflexivity|].
    now rewrite (cmp_refl cmp C a).
  - intros x; induction x as [|a x IH]; intros [|b y]; simpl; try lia.
    rewrite (cmp_opp cmp C a b).
    destruct (cmp a b =? 0) eqn:E.
    + apply Z.eqb_eq in E. rewrite E. simpl. apply IH.
    + apply Z.eqb_neq in E.
      destruct (- cmp a b =? 0) eqn:E'; [apply Z.eqb_eq in E'; lia|].
      reflexivity.
  - intros x; induction x as [|a x IH]; intros [|b y] [|c z]; simpl;
      intros H; try reflexivity; try discriminate.
    destruct (cmp a b =? 0) eqn:E; [|apply Z.eqb_neq in E; lia].
    apply Z.eqb_eq in E.
    rewrite (cmp_cong cmp C a b c E).
      destruct (cmp b c =? 0); [now apply IH | reflexivity].
  - intros x; induction x as [|a x IH]; intros [|b y] [|c z]; simpl;
      try lia.
    case_zero (cmp a b) E1; case_zero (cmp b c) E2; intros H1 H2.
    + rewrite (cmp_cong cmp C a b c E1), E2. simpl. now apply IH with y.
    + rewrite (cmp_cong cmp C a b c E1).
      destruct (cmp b c =? 0) eqn:E3; [apply Z.eqb_eq in E3; lia | exact H2].
    + rewrite <- (cmp_cong_r a b c E2).
      destruct (cmp a b =? 0) eqn:E3; [apply Z.eqb_eq in E3; lia | exact H1].
    + pose proof (cmp_trans cmp C a b c H1 H2).
      destruct (cmp a c =? 0) eqn:E3; [apply Z.eqb_eq in E3; lia | lia].
Qed.

End Derived.

Section Pairs.
Context {A B : Type} (c1 : A -> A -> Z) (c2 : B -> B -> Z)
        (C1 : Comparator c1) (C2 : Comparator c2).

Lemma Comparator_lex : Comparator (lexCmp c1 c2).
Proof.
  split; unfold lexCmp.
  - intros [a b] [a' b']; simpl.
    destruct (c1 a a' =? 0);
      [apply (cmp_range c2 C2) | apply (cmp_range c1 C1)].
  - intros [a b]; simpl.
    now rewrite (cmp_refl c1 C1), (cmp_refl c2 C2).
  - intros [a b] [a' b']; simpl.
    rewrite (cmp_opp c1 C1 a a'), (cmp_opp c2 C2 b b').
    destruct (c1 a a' =? 0) eqn:E.
    + apply Z.eqb_eq in E. now rewrite E.
    + apply Z.eqb_neq in E.
      destruct (- c1 a a' =? 0) eqn:E'; [apply Z.eqb_eq in E'; lia|].
      reflexivity.
  - intros [a b] [a' b'] [a'' b'']; simpl.
    destruct (c1 a a' =? 0) eqn:E; [|intros; apply Z.eqb_neq in E; lia].
    apply Z.eqb_eq in E. intros H.
    now rewrite (cmp_cong c1 C1 a a' a'' E), (cmp_cong c2 C2 b b' b'' H).
  - intros [a b] [a' b'] [a'' b'']; simpl.
    case_zero (c1 a a') E1; case_zero (c1 a' a'') E2; intros H1 H2.
    + rewrite (cmp_cong c1 C1 a a' a'' E1), E2. simpl.
      now apply (cmp_trans c2 C2) with b'.
    + rewrite (cmp_cong c1 C1 a a' a'' E1).
      destruct (c1 a' a'' =? 0) eqn:E3;
        [apply Z.eqb_eq in E3; lia | exact H2].
    + rewrite <- (cmp_cong_r c1 C1 a a' a'' E2).
      destruct (c1 a a' =? 0) eqn:E3;
        [apply Z.eqb_eq in E3; lia | exact H1].
    + pose proof (cmp_trans c1 C1 a a' a'' H1 H2).
      destruct (c1 a a'' =? 0) eqn:E3; [apply Z.eqb_eq in E3; lia | lia].
Qed.

End Pairs.

(** ** The basic comparisons *)

Lemma Comparator_nat : Comparator natCmp.
Proof.
  split; unfold natCmp; intros;
    repeat match goal with
           | |- context [Nat.ltb ?a ?b] =>
               let E := fresh "E" in
               destruct (Nat.ltb a b) eqn:E;
               [apply Nat.ltb_lt in E | apply Nat.ltb_ge in E]
           | H : context [Nat.ltb ?a ?b] |- _ =>
               let E := fresh "E" in
               destruct (Nat.ltb a b) eqn:E;
               [apply Nat.ltb_lt in E | apply Nat.ltb_ge in E]
           end; lia.
Qed.

Lemma ascii_compare_refl (a : ascii) : Ascii.compare a a = Eq.
Proof. apply N.compare_refl. Qed.

Lemma ascii_compare_trans (a b c : ascii) :
  Ascii.compare a b = Lt -> Ascii.compare b c = Lt ->
  Ascii.compare a c = Lt.
Proof.
  unfold Ascii.compare. rewrite !N.compare_lt_iff. apply N.lt_trans.
Qed.

Lemma string_compare_refl (x : string) : String.compare x x = Eq.
Proof.
  induction x as [|a x IH]; simpl; [reflexivity|].
  now rewrite ascii_compare_refl.
Qed.

Lemma string_compare_trans (x y z : string) :
  String.compare x y = Lt -> String.compare y z = Lt ->
  String.compare x z = Lt.
Proof.
  revert y z; induction x as [|a x IH]; intros [|b y] [|c z]; simpl;
    try discriminate; try reflexivity.
  destruct (Ascii.compare a b) eqn:Eab; try discriminate;
    destruct (Ascii.compare b c) eqn:Ebc; try discriminate; intros H1 H2.
  - apply Ascii.compare_eq_iff in Eab, Ebc. subst.
    rewrite ascii_compare_refl. now apply IH with y.
  - apply Ascii.compare_eq_iff in Eab. subst. now rewrite Ebc.
  - apply Ascii.compare_eq_iff in Ebc. subst. now rewrite Eab.
  - now rewrite (ascii_compare_trans a b c).
Qed.

Lemma strCmp_zero (x y : string) : strCmp x y = 0 -> x = y.
Proof.
  unfold strCmp. destruct (String.compare x y) eqn:E; try discriminate.
  intros _. now apply String.compare_eq_iff.
Qed.

Lemma Comparator_str : Comparator strCmp.
Proof.
  split.
  - intros x y. unfold strCmp. destruct (String.compare x y); lia.
  - intros x. unfold strCmp. now rewrite string_compare_refl.
  - intros x y. unfold strCmp. rewrite (String.compare_antisym y x).
    destruct (String.compare x y); reflexivity.
  - intros x y z H. now rewrite (strCmp_zero x y H).
  - intros x y z. unfold strCmp.
    destruct (String.compare x y) eqn:Exy; try lia.
    destruct (String.compare y z) eqn:Eyz; try lia.
    now rewrite (string_compare_trans x y z).
Qed.

Lemma Comparator_bool : Comparator boolCmp.
Proof. exact (Comparator_map natCmp Comparator_nat Nat.b2n). Qed.

Lemma Comparator_int : Comparator intCmp.
Proof.
  unfold intCmp.
  refine (Comparator_map (lexCmp natCmp strCmp) _ intKey).
  apply Comparator_lex; [apply Comparator_nat | apply Comparator_str].
Qed.

Lemma Comparator_ident : Comparator identCmp.
Proof.
  unfold identCmp.
  refine (Comparator_map (lexCmp boolCmp (lexCmp natCmp strCmp)) _ identKey).
  apply Comparator_lex; [apply Comparator_bool|].
  apply Comparator_lex; [apply Comparator_nat | apply Comparator_str].
Qed.

Lemma Comparator_prerelease : Comparator prereleaseCmp.
Proof. apply Comparator_top, Comparator_list, Comparator_ident. Qed.

Lemma Comparator_version : Comparator versionCmp.
Proof.
  apply Comparator_bottom.
  repeat (apply Comparator_lex; [apply Comparator_int|]).
  apply Comparator_prerelease.
Qed.

Lemma intCmp_zero (x y : string) : intCmp x y = 0 -> x = y.
Proof.
  unfold intCmp, lexCmp, intKey; simpl.
  destruct (natCmp _ _ =? 0) eqn:E; [apply strCmp_zero|].
  apply Z.eqb_neq in E. lia.
Qed.

Lemma identCmp_zero (d e : string) : identCmp d e = 0 -> d = e.
Proof.
  unfold identCmp, lexCmp, identKey; simpl.
  destruct (boolCmp _ _ =? 0) eqn:E1; [|apply Z.eqb_neq in E1; lia].
  destruct (natCmp _ _ =? 0) eqn:E2; [apply strCmp_zero|].
  apply Z.eqb_neq in E2. lia.
Qed.

End orderFacts.

(* ================================================================== *)
(** * Properties of [semver] *)

Module semverFacts.
Import semver order orderFacts.

(** ** The numbers and the identifiers *)

Lemma strLess_strCmp (x y : string) :
  x <> y -> (if strLess x y then -1 else 1) = strCmp x y.
Proof.
  intros Hne. unfold strLess, String.ltb, strCmp.
  destruct (String.compare x y) eqn:E; try reflexivity.
  now apply String.compare_eq_iff in E.
Qed.

(** [compareInt] compares by length, then by bytes. *)
Lemma compareInt_intCmp (x y : string) : compareInt x y = intCmp x y.
Proof.
  unfold compareInt. destruct (String.eqb_spec x y) as [->|Hne].
  - symmetry. apply (cmp_refl intCmp Comparator_int).
  - unfold intCmp, lexCmp, intKey, natCmp; simpl.
    destruct (Nat.ltb (String.length x) (String.length y));
      [reflexivity|].
    destruct (Nat.ltb (String.length y) (String.length x));
      [reflexivity|]. simpl.
    now apply strLess_strCmp.
Qed.

(** Inside the loop of [comparePrerelease], two identifiers that
    differ are compared as [identCmp] does. *)
Lemma compareIdent_identCmp (dx dy : string) :
  dx <> dy -> compareIdent dx dy = identCmp dx dy.
Proof.
  intros Hne. unfold compareIdent, identCmp, lexCmp, identKey; simpl.
  destruct (isNum dx), (isNum dy); simpl; try reflexivity.
  - unfold natCmp.
    destruct (Nat.ltb (String.length dx) (String.length dy));
      [reflexivity|].
    destruct (Nat.ltb (String.length dy) (String.length dx));
      [reflexivity|]. simpl.
    now apply strLess_strCmp.
  - now apply strLess_strCmp.
Qed.

(** ** The identifiers of a pre-release *)

Lemma scanWhile_shift (p : ascii -> bool) (r : string) (i : nat) :
  scanWhile p r (S i) = S (scanWhile p r i).
Proof.
  revert i; induction r as [|c r IH]; intros i; simpl; [reflexivity|].
  destruct (p c); [apply IH | reflexivity].
Qed.

Lemma nextIdent_cons (c : ascii) (r : string) :
  nextIdent (String c r) =
  if Ascii.eqb c "." then (EmptyString, String c r)
  else (String c (fst (nextIdent r)), snd (nextIdent r)).
Proof.
  unfold nextIdent. cbn [scanWhile].
  destruct (Ascii.eqb c "."); [reflexivity|]. cbn [negb].
  rewrite scanWhile_shift. reflexivity.
Qed.

Lemma splitDots_nonempty (r : string) : splitDots r <> [].
Proof.
  destruct r as [|c r]; simpl; [discriminate|].
  destruct (Ascii.eqb c "."); [discriminate|].
  destruct (splitDots r); discriminate.
Qed.

(** [nextIdent] takes the first of the identifiers and leaves a rest
    that holds the others. *)
Lemma nextIdent_spec (r : string) :
  splitDots r = fst (nextIdent r) :: idents (snd (nextIdent r))
  /\ (String.length (snd (nextIdent r)) <= String.length r)%nat.
Proof.
  induction r as [|c r [IH1 IH2]]; [split; [reflexivity | simpl; lia]|].
  rewrite nextIdent_cons. cbn [splitDots].
  destruct (Ascii.eqb c ".") eqn:Hc.
  - apply Ascii.eqb_eq in Hc. subst c.
    split; [reflexivity | cbn [snd]; lia].
  - cbn [fst snd]. rewrite IH1. split; [reflexivity|].
    cbn [String.length]. lia.
Qed.

(** The identifiers determine the string they were cut from. *)
Lemma concat_splitDots (r : string) : String.concat "." (splitDots r) = r.
Proof.
  induction r as [|c r IH]; [reflexivity|]. cbn [splitDots].
  pose proof (splitDots_nonempty r) as Hne.
  destruct (Ascii.eqb c ".") eqn:Hc.
  - apply Ascii.eqb_eq in Hc. subst c.
    destruct (splitDots r) as [|d ds]; [contradiction|].
    change (String.concat "." (EmptyString :: d :: ds))
      with (String "." (String.concat "." (d :: ds))).
    now rewrite IH.
  - destruct (splitDots r) as [|d ds]; [contradiction|].
    destruct ds as [|d' ds].
    + simpl in *. now rewrite IH.
    + change (String.concat "." (String c d :: d' :: ds))
        with (String c (String.concat "." (d :: d' :: ds))).
      now rewrite IH.
Qed.

Lemma splitDots_inj (r1 r2 : string) :
  splitDots r1 = splitDots r2 -> r1 = r2.
Proof.
  intros H. rewrite <- (concat_splitDots r1), <- (concat_splitDots r2).
  now rewrite H.
Qed.

(** ** The loop of [comparePrerelease] *)

(** The loop runs to its end with [String.length x] iterations, and
    on strings with different identifiers it compares these
    identifiers one by one. *)
Lemma prereleaseCompareLoop_spec (fuel : nat) (x y : string) :
  (String.length x <= fuel)%nat ->
  idents x <> idents y ->
  prereleaseCompareLoop fuel x y
  = Some (listCmp identCmp (idents x) (idents y)).
Proof.
  revert x y; induction fuel as [|fuel IH]; intros x y Hlen Hne.
  - destruct x as [|cx rx]; [|simpl in Hlen; lia].
    simpl. destruct (idents y); [contradiction | reflexivity].
  - destruct x as [|cx rx].
    { simpl. destruct (idents y); [contradiction | reflexivity]. }
    destruct y as [|cy ry].
    { simpl. pose proof (splitDots_nonempty rx).
      destruct (splitDots rx); [contradiction | reflexivity]. }
    cbn [prereleaseCompareLoop String.eqb negb andb sliceFrom].
    destruct (nextIdent_spec rx) as [Hx Hlx].
    destruct (nextIdent_spec ry) as [Hy _].
    destruct (nextIdent rx) as [dx x'], (nextIdent ry) as [dy y'].
    cbn [fst snd] in *. cbn [idents] in *. rewrite Hx, Hy in *.
    cbn [listCmp].
    destruct (String.eqb_spec dx dy) as [->|Hd]; cbn [negb].
    + rewrite (cmp_refl identCmp Comparator_ident dy). cbn [Z.eqb].
      apply IH; [simpl in Hlen; lia|].
      intros E. apply Hne. now rewrite E.
    + rewrite (compareIdent_identCmp dx dy Hd).
      destruct (identCmp dx dy =? 0) eqn:E; [|reflexivity].
      apply Z.eqb_eq, identCmp_zero in E. contradiction.
Qed.

(** [comparePrerelease], on strings that are empty or start with a
    hyphen, compares their keys. *)
Lemma comparePrerelease_prereleaseCmp (x y : string) :
  x = "" \/ startsWith "-" x = true ->
  y = "" \/ startsWith "-" y = true ->
  comparePrerelease x y = prereleaseCmp (prereleaseKey x) (prereleaseKey y).
Proof.
  intros Hx Hy. unfold comparePrerelease.
  destruct (String.eqb_spec x y) as [->|Hne].
  { symmetry. apply (cmp_refl prereleaseCmp Comparator_prerelease). }
  destruct x as [|cx rx]; [destruct y; [contradiction | reflexivity]|].
  destruct y as [|cy ry]; [reflexivity|].
  destruct Hx as [Hx|Hx]; [discriminate|].
  destruct Hy as [Hy|Hy]; [discriminate|].
  simpl in Hx, Hy. apply Ascii.eqb_eq in Hx, Hy. subst cx cy.
  cbn [String.eqb].
  rewrite prereleaseCompareLoop_spec; [reflexivity | lia |].
  simpl. intros E. apply splitDots_inj in E. now subst.
Qed.

(** ** What [parse] leaves in the pre-release field *)

Lemma prereleaseLoop_index (v rest : string) (i start i' start' : nat) :
  prereleaseLoop v rest i start = Some (i', start') -> (i <= i')%nat.
Proof.
  revert i start; induction rest as [|c rest IH]; intros i start; simpl.
  - intros [= <- _]. lia.
  - destruct (Ascii.eqb c "+"); [intros [= <- _]; lia|].
    destruct (negb (isIdentChar c) && negb (Ascii.eqb c "."));
      [discriminate|].
    destruct (Ascii.eqb c ".").
    + destruct (Nat.eqb start i || isBadNum (slice start i v));
        [discriminate|].
      intros H. apply IH in H. lia.
    + intros H. apply IH in H. lia.
Qed.

Lemma parsePrerelease_shape (v t rest : string) :
  parsePrerelease v = Some (t, rest) -> startsWith "-" t = true.
Proof.
  unfold parsePrerelease. destruct v as [|c0 v]; [discriminate|].
  destruct (Ascii.eqb c0 "-") eqn:Hc; [|discriminate]. cbn [negb].
  destruct (prereleaseLoop _ _ 1 1) as [[i start]|] eqn:Hloop;
    [|discriminate].
  apply prereleaseLoop_index in Hloop.
  destruct (Nat.eqb start i || isBadNum _); [discriminate|].
  intros [= <- _]. destruct i as [|i]; [lia|]. exact Hc.
Qed.

Lemma parseSuffix_shape (ma mi pa v : string) (p : parsed) :
  parseSuffix ma mi pa v = Some p ->
  prerelease p = "" \/ startsWith "-" (prerelease p) = true.
Proof.
  unfold parseSuffix.
  destruct (startsWith "-" v).
  - destruct (parsePrerelease v) as [[pre v']|] eqn:Hpre; [|discriminate].
    apply parsePrerelease_shape in Hpre.
    destruct (startsWith "+" v').
    + destruct (parseBuild v') as [[b v'']|]; [|discriminate].
      destruct (negb (String.eqb v'' "")); [discriminate|].
      intros [= <-]. now right.
    + destruct (negb (String.eqb v' "")); [discriminate|].
      intros [= <-]. now right.
  - destruct (startsWith "+" v).
    + destruct (parseBuild v) as [[b v'']|]; [|discriminate].
      destruct (negb (String.eqb v'' "")); [discriminate|].
      intros [= <-]. now left.
    + destruct (negb (String.eqb v "")); [discriminate|].
      intros [= <-]. now left.
Qed.

Lemma parse_shape (v : string) (p : parsed) :
  parse v = Some p ->
  prerelease p = "" \/ startsWith "-" (prerelease p) = true.
Proof.
  unfold parse. destruct v as [|c0 v]; [discriminate|].
  destruct (negb (Ascii.eqb c0 "v")); [discriminate|].
  destruct (parseInt _) as [[ma v1]|]; [|discriminate].
  destruct (String.eqb v1 ""); [intros [= <-]; now left|].
  destruct (negb (startsWith "." v1)); [discriminate|].
  destruct (parseInt _) as [[mi v2]|]; [|discriminate].
  destruct (String.eqb v2 ""); [intros [= <-]; now left|].
  destruct (negb (startsWith "." v2)); [discriminate|].
  destruct (parseInt _) as [[pa v3]|]; [|discriminate].
  apply parseSuffix_shape.
Qed.

(** ** [Compare] *)

(** [Compare] compares the keys of the two versions. *)
Lemma Compare_versionCmp (v w : string) :
  Compare v w = versionCmp (versionKey v) (versionKey w).
Proof.
  unfold Compare, versionKey.
  destruct (parse v) as [pv|] eqn:Hv, (parse w) as [pw|] eqn:Hw;
    try reflexivity.
  apply parse_shape in Hv, Hw.
  rewrite !compareInt_intCmp, (comparePrerelease_prereleaseCmp _ _ Hv Hw).
  unfold versionCmp, bottomCmp, lexCmp. cbn [fst snd].
  destruct (intCmp (major pv) (major pw) =? 0); [|reflexivity].
  destruct (intCmp (minor pv) (minor pw) =? 0); [|reflexivity].
  destruct (intCmp (patch pv) (patch pw) =? 0); reflexivity.
Qed.

(** [Compare] compares along a total preorder of the strings. *)
Lemma Comparator_Compare : Comparator Compare.
Proof.
  pose proof (Comparator_map versionCmp Comparator_version versionKey) as C.
  split; intros; rewrite ?Compare_versionCmp in *.
  - apply (cmp_range _ C).
  - apply (cmp_refl _ C).
  - apply (cmp_opp _ C).
  - now apply (cmp_cong _ C).
  - now apply (cmp_trans _ C) with (y := y).
Qed.

(** Two invalid versions compare equal. *)
Lemma Compare_invalid (v w : string) :
  IsValid v = false -> IsValid w = false -> Compare v w = 0.
Proof.
  unfold IsValid, Compare.
  destruct (parse v); [discriminate|].
  destruct (parse w); [discriminate | reflexivity].
Qed.

(** A version that does not start with [v] is invalid. *)
Lemma IsValid_needs_v (v : string) :
  startsWith "v" v = false -> IsValid v = false.
Proof.
  unfold IsValid, parse. destruct v as [|c0 v]; [reflexivity|]. simpl.
  now intros ->.
Qed.

End semverFacts.

(* ================================================================== *)
(** * The catalogue accessor and the decoder *)

Section CatalogClaims.

Variable decodeError : error -> option error.

(** C2. Whatever the value of the [includeCustom] flag and whatever
    the server answers, the list returned by [ListDiskImages] has no
    entry whose name contains ["k3s"] or ["talos"]; and when the
    request succeeds and its body decodes to [decoded], that list is
    [decoded] with exactly those entries removed, the others kept in
    their order. *)
Theorem ListDiskImages_drops_reserved_names
        (c : Client) (includeCustom : list bool) :
  Forall (fun d => strings.Contains (Name d) "k3s" = false
                   /\ strings.Contains (Name d) "talos" = false)
         (fst (ListDiskImages decodeError c includeCustom))
  /\ forall (resp : Body) (decoded : list DiskImage),
      SendGetRequest c
        (if hd false includeCustom then "/v2/disk_images?type=custom"
         else "/v2/disk_images") = (resp, None) ->
      decodeDiskImages resp = (decoded, None) ->
      ListDiskImages decodeError c includeCustom
      = (filter (fun d => negb (strings.Contains (Name d) "k3s"
                                || strings.Contains (Name d) "talos"))
                decoded,
         None).
Proof.
  split.
  - pose proof (ListDiskImages_notReserved decodeError c includeCustom) as H.
    rewrite Forall_forall in *. intros d Hd.
    now apply notReserved_iff, H.
  - intros resp decoded Hsend Hdec.
    rewrite (ListDiskImages_ok decodeError c includeCustom resp decoded
               Hsend Hdec).
    f_equal. apply filter_ext. intros d. unfold notReserved.
    now rewrite negb_orb.
Qed.

(** C8, as the code has it.  A [DiskImage] that was decoded without
    error is returned as the decoder left it, with no check of its ID
    or of its name.  [GetDiskImage] returns the decoded image whatever
    they are.  [ListDiskImages] returns exactly the decoded entries
    whose name has neither ["k3s"] nor ["talos"] inside, whatever
    their ID: an entry decoded with an empty name is always among
    them. *)
Theorem decoded_images_are_returned_unchecked
        (c : Client) (includeCustom : list bool) (id : string) :
  (forall resp decoded,
      SendGetRequest c
        (if hd false includeCustom then "/v2/disk_images?type=custom"
         else "/v2/disk_images") = (resp, None) ->
      decodeDiskImages resp = (decoded, None) ->
      snd (ListDiskImages decodeError c includeCustom) = None
      /\ (forall d,
             In d (fst (ListDiskImages decodeError c includeCustom))
             <-> In d decoded
                 /\ strings.Contains (Name d) "k3s" = false
                 /\ strings.Contains (Name d) "talos" = false)
      /\ (forall d, In d decoded -> Name d = "" ->
                    In d (fst (ListDiskImages decodeError c includeCustom))))
  /\ (forall resp d,
         SendGetRequest c ("/v2/disk_images/" ++ id) = (resp, None) ->
         decodeDiskImage resp = (d, None) ->
         GetDiskImage decodeError c id = (d, None)).
Proof.
  split.
  - intros resp decoded Hsend Hdec.
    rewrite (ListDiskImages_ok decodeError c includeCustom resp decoded
               Hsend Hdec). cbn [fst snd].
    assert (Hiff : forall d,
               In d (filter notReserved decoded)
               <-> In d decoded
                   /\ strings.Contains (Name d) "k3s" = false
                   /\ strings.Contains (Name d) "talos" = false).
    { intros d. rewrite filter_In, notReserved_iff. tauto. }
    split; [reflexivity|]. split; [exact Hiff|].
    intros d Hd Hname. apply Hiff. rewrite Hname.
    split; [exact Hd | split; reflexivity].
  - intros resp d Hsend Hdec. unfold GetDiskImage.
    now rewrite Hsend, Hdec.
Qed.

End CatalogClaims.

(* ================================================================== *)
(** * The resolver *)

Section ResolverClaims.

Variable decodeError : error -> option error.

(** C1. When some entry of the listed catalogue has its name or its
    ID equal to the search string, [FindDiskImage] returns the last
    such entry of the catalogue, whatever the other entries are. *)
Theorem FindDiskImage_returns_last_exact_match
        (c : Client) (search : string) (catalog : list DiskImage) :
  ListDiskImages decodeError c [] = (catalog, None) ->
  (exists e, In e catalog /\ (Name e = search \/ ID e = search)) ->
  exists pre d post,
    catalog = (pre ++ d :: post)%list
    /\ (Name d = search \/ ID d = search)
    /\ (forall e, In e post -> Name e <> search /\ ID e <> search)
    /\ FindDiskImage decodeError c search = (Some d, None).
Proof.
  intros Hlist (e & Hin & He).
  destruct (last_satisfying (isExact search) catalog)
    as (pre & d & post & Hcat & Hd & Hpost).
  { exists e. split; [exact Hin | now apply isExact_true]. }
  exists pre, d, post. split; [exact Hcat|].
  split; [now apply isExact_true|]. split.
  - intros x Hx. rewrite Forall_forall in Hpost.
    now apply isExact_false, Hpost.
  - rewrite (FindDiskImage_listed _ _ _ _ Hlist). subst catalog.
    replace (pre ++ d :: post)%list with ((pre ++ [d]) ++ post)%list
      by now rewrite <- app_assoc.
    rewrite fold_left_app.
    destruct (fold_findStep_exact search pre d
                (mkFindState false 0 zeroDiskImage) Hd) as [n ->].
    rewrite fold_findStep_sticky by (assumption || reflexivity).
    reflexivity.
Qed.

(** C3. When no entry of the listed catalogue has its name or its ID
    equal to the search string: with two entries (or more) that have
    the search string inside their name or their ID, [FindDiskImage]
    returns no image and the multiple-matches error; with no such
    entry, it returns no image and the zero-matches error.  The
    message of either error contains the search string. *)
Theorem FindDiskImage_errors_without_exact_match
        (c : Client) (search : string) (catalog : list DiskImage) :
  ListDiskImages decodeError c [] = (catalog, None) ->
  Z.of_nat (List.length catalog) <= maxInt ->
  (forall e, In e catalog -> Name e <> search /\ ID e <> search) ->
  ((exists l1 a l2 b l3,
       catalog = (l1 ++ a :: l2 ++ b :: l3)%list
       /\ (strings.Contains (Name a) search = true
           \/ strings.Contains (ID a) search = true)
       /\ (strings.Contains (Name b) search = true
           \/ strings.Contains (ID b) search = true)) ->
   FindDiskImage decodeError c search
   = (None,
      Some (wrapError MultipleMatchesError
              (fmt_Errorf ("unable to find " ++ search
                           ++ " because there were multiple matches")))))
  /\ ((forall e, In e catalog ->
                 strings.Contains (Name e) search = false
                 /\ strings.Contains (ID e) search = false) ->
      FindDiskImage decodeError c search
      = (None,
         Some (wrapError ZeroMatchesError
                 (fmt_Errorf ("unable to find " ++ search
                              ++ ", zero matches")))))
  /\ strings.Contains ("unable to find " ++ search
                       ++ " because there were multiple matches") search
     = true
  /\ strings.Contains ("unable to find " ++ search ++ ", zero matches")
                      search = true.
Proof.
  intros Hlist Hlen Hnoexact.
  assert (Hall : Forall (fun e => isExact search e = false) catalog).
  { apply Forall_forall. intros e He. now apply isExact_false, Hnoexact. }
  split; [|split; [|split]].
  - intros (l1 & a & l2 & b & l3 & Hcat & Ha & Hb).
    apply isPartial_true in Ha, Hb. subst catalog.
    now apply (FindDiskImage_ambiguous decodeError search c l1 l2 l3 a b).
  - intros Hnone.
    assert (Hn : filter (isPartial search) catalog = []).
    { apply filter_none. intros e He. now apply isPartial_false, Hnone. }
    rewrite (FindDiskImage_listed _ _ _ _ Hlist).
    rewrite (fold_findStep_partial search catalog
               (mkFindState false 0 zeroDiskImage) eq_refl Hall);
      cbn [partialMatchesCount result]; try rewrite Hn;
      [reflexivity | lia | unfold maxInt; simpl; lia].
  - apply (stringsFacts.Contains_infix "unable to find " search).
  - apply (stringsFacts.Contains_infix "unable to find " search).
Qed.

(** C5. When no entry of the listed catalogue has its name or its ID
    equal to the search string and exactly one entry has the search
    string inside its name or its ID, [FindDiskImage] returns that
    entry and no error. *)
Theorem FindDiskImage_returns_single_partial_match
        (c : Client) (search : string)
        (catalog pre post : list DiskImage) (d : DiskImage) :
  ListDiskImages decodeError c [] = (catalog, None) ->
  catalog = (pre ++ d :: post)%list ->
  (forall e, In e catalog -> Name e <> search /\ ID e <> search) ->
  strings.Contains (Name d) search = true
  \/ strings.Contains (ID d) search = true ->
  (forall e, In e (pre ++ post)%list ->
             strings.Contains (Name e) search = false
             /\ strings.Contains (ID e) search = false) ->
  FindDiskImage decodeError c search = (Some d, None).
Proof.
  intros Hlist Hcat Hnoexact Hd Hothers.
  assert (Hall : Forall (fun e => isExact search e = false) catalog).
  { apply Forall_forall. intros e He. now apply isExact_false, Hnoexact. }
  assert (Hf : filter (isPartial search) catalog = [d]).
  { rewrite Hcat, filter_app. cbn [filter].
    apply isPartial_true in Hd. rewrite Hd.
    rewrite !filter_none; [reflexivity| |];
      intros e He; apply isPartial_false, Hothers, in_or_app; auto. }
  rewrite (FindDiskImage_listed _ _ _ _ Hlist).
  rewrite (fold_findStep_partial search catalog
             (mkFindState false 0 zeroDiskImage) eq_refl Hall);
    cbn [partialMatchesCount result]; try rewrite Hf;
    [reflexivity | lia | unfold maxInt; simpl; lia].
Qed.

(** C9. On a listed catalogue of two entries or more, each with a
    non-empty name and a non-empty ID, [FindDiskImage] with the empty
    search string returns no image and the multiple-matches error:
    the empty string is inside every name and every ID and equals
    none of them. *)
Theorem FindDiskImage_empty_search_is_ambiguous
        (c : Client) (catalog : list DiskImage) :
  ListDiskImages decodeError c [] = (catalog, None) ->
  (2 <= List.length catalog)%nat ->
  Z.of_nat (List.length catalog) <= maxInt ->
  (forall e, In e catalog -> Name e <> "" /\ ID e <> "") ->
  FindDiskImage decodeError c ""
  = (None,
     Some (wrapError MultipleMatchesError
             (fmt_Errorf ("unable to find " ++ ""
                          ++ " because there were multiple matches"))))
  /\ (forall e, In e catalog ->
                strings.Contains (Name e) "" = true
                /\ strings.Contains (ID e) "" = true).
Proof.
  intros Hlist Hlen Hmax Hnonempty. split.
  - destruct catalog as [|a [|b l3]]; try (simpl in Hlen; lia).
    apply (FindDiskImage_ambiguous decodeError "" c [] [] l3 a b);
      try assumption.
    + apply Forall_forall. intros e He.
      now apply isExact_false, Hnonempty.
    + unfold isPartial. now rewrite stringsFacts.Contains_empty.
    + unfold isPartial. now rewrite stringsFacts.Contains_empty.
  - intros e _. now rewrite !stringsFacts.Contains_empty.
Qed.

End ResolverClaims.

(* ================================================================== *)
(** * Get-by-name *)

Section ByNameClaims.

Variable decodeError : error -> option error.

Lemma firstNamed_skip (name : string) (pre l : list DiskImage) :
  (forall e, In e pre -> Name e <> name) ->
  firstNamed name (pre ++ l) = firstNamed name l.
Proof.
  induction pre as [|a pre IH]; intros H; [reflexivity|]. simpl.
  assert (Ha : String.eqb (Name a) name = false)
    by (apply String.eqb_neq, H; now left).
  rewrite Ha. apply IH. intros e He. apply H. now right.
Qed.

(** C6. On the listed catalogue, [GetDiskImageByName] returns the
    first entry, in catalogue order, whose name is the given name; if
    no entry has that name it returns no image and the error
    ["diskimage not found"]. *)
Theorem GetDiskImageByName_first_match_or_not_found
        (c : Client) (name : string) (catalog : list DiskImage) :
  ListDiskImages decodeError c [] = (catalog, None) ->
  (forall pre d post,
      catalog = (pre ++ d :: post)%list ->
      Name d = name ->
      (forall e, In e pre -> Name e <> name) ->
      GetDiskImageByName decodeError c name = (Some d, None))
  /\ ((forall e, In e catalog -> Name e <> name) ->
      GetDiskImageByName decodeError c name
      = (None, Some (errors_New "diskimage not found"))).
Proof.
  intros Hlist. unfold GetDiskImageByName. rewrite Hlist. split.
  - intros pre d post -> Hd Hpre.
    rewrite firstNamed_skip by exact Hpre. simpl.
    apply String.eqb_eq in Hd. now rewrite Hd.
  - intros Hnone.
    rewrite <- (app_nil_r catalog), firstNamed_skip by exact Hnone.
    reflexivity.
Qed.

End ByNameClaims.

(* ================================================================== *)
(** * The version selector *)

Section SelectorFacts.

Variable name : string.

Lemma fold_distroStep_skip (l : list DiskImage) (h : option DiskImage) :
  (forall e, In e l -> strings.Contains (Name e) name = false) ->
  fold_left (distroStep name) l h = h.
Proof.
  revert h; induction l as [|d l IH]; intros h H; [reflexivity|]. simpl.
  unfold distroStep at 2. rewrite (H d) by now left.
  apply IH. intros e He. apply H. now right.
Qed.

(** Entries that are not above the candidate leave it in place. *)
Lemma fold_distroStep_keep (l : list DiskImage) (r : DiskImage) :
  (forall e, In e l -> strings.Contains (Name e) name = true ->
             0 <= semver.Compare (Version r) (Version e)) ->
  fold_left (distroStep name) l (Some r) = Some r.
Proof.
  induction l as [|d l IH]; intros H; [reflexivity|]. simpl.
  assert (Hd : distroStep name (Some r) d = Some r).
  { unfold distroStep.
    destruct (strings.Contains (Name d) name) eqn:Hm; [|reflexivity].
    specialize (H d (or_introl eq_refl) Hm).
    destruct (_ <? 0) eqn:E; [apply Z.ltb_lt in E; lia | reflexivity]. }
  rewrite Hd. apply IH. intros e He. apply H. now right.
Qed.

(** The loop keeps the first entry of greatest version seen so
    far. *)
Lemma fold_distroStep_firstGreatest
      (l seen : list DiskImage) (r : DiskImage) :
  firstGreatest name seen r ->
  exists r', fold_left (distroStep name) l (Some r) = Some r'
             /\ firstGreatest name (seen ++ l) r'.
Proof.
  pose proof semverFacts.Comparator_Compare as C.
  revert seen r; induction l as [|d l IH]; intros seen r Hr.
  - exists r. now rewrite app_nil_r.
  - assert (Hstep : exists r1, distroStep name (Some r) d = Some r1
                               /\ firstGreatest name (seen ++ [d]) r1).
    { destruct Hr as (pre & post & Hseen & Hm & Hmax & Hpre).
      unfold distroStep.
      destruct (strings.Contains (Name d) name) eqn:Hd.
      - destruct (_ <? 0) eqn:E;
          [apply Z.ltb_lt in E | apply Z.ltb_ge in E].
        + exists d. split; [reflexivity|].
          exists seen, []. split; [reflexivity|]. split; [exact Hd|].
          assert (Hlt : forall e, In e seen ->
                                  strings.Contains (Name e) name = true ->
                                  semver.Compare (Version e) (Version d) < 0).
          { intros e He Hme.
            apply (orderFacts.cmp_le_lt_trans _ C) with (y := Version r);
              [now apply Hmax | exact E]. }
          split; [|exact Hlt].
          intros e He Hme. apply in_app_or in He as [He|[<-|[]]].
          * specialize (Hlt e He Hme). lia.
          * rewrite (order.cmp_refl _ C). lia.
        + exists r. split; [reflexivity|].
          exists pre, (post ++ [d])%list.
          split; [rewrite Hseen, <- app_assoc; reflexivity|].
          split; [exact Hm|]. split; [|exact Hpre].
          intros e He Hme. apply in_app_or in He as [He|[<-|[]]].
          * now apply Hmax.
          * rewrite (order.cmp_opp _ C). lia.
      - exists r. split; [reflexivity|].
        exists pre, (post ++ [d])%list.
        split; [rewrite Hseen, <- app_assoc; reflexivity|].
        split; [exact Hm|]. split; [|exact Hpre].
        intros e He Hme. apply in_app_or in He as [He|[<-|[]]].
        + now apply Hmax.
        + congruence. }
    destruct Hstep as (r1 & Hr1 & Hfg).
    destruct (IH _ _ Hfg) as (r' & Hfold & Hr').
    exists r'. simpl. rewrite Hr1. split; [exact Hfold|].
    now rewrite <- app_assoc in Hr'.
Qed.

(** An entry that satisfies [p] has a first such entry before it. *)
Lemma first_satisfying (p : DiskImage -> bool) (l : list DiskImage) :
  (exists e, In e l /\ p e = true) ->
  exists pre d post,
    l = (pre ++ d :: post)%list /\ p d = true
    /\ (forall e, In e pre -> p e = false).
Proof.
  induction l as [|a l IH]; intros (e & Hin & He); [destruct Hin|].
  destruct (p a) eqn:Ha.
  - exists [], a, l. split; [reflexivity|]. split; [exact Ha|].
    intros x [].
  - destruct Hin as [->|Hin]; [congruence|].
    destruct (IH (ex_intro _ e (conj Hin He)))
      as (pre & d & post & -> & Hd & Hpre).
    exists (a :: pre), d, post. split; [reflexivity|].
    split; [exact Hd|]. intros x [<-|Hx]; [exact Ha | now apply Hpre].
Qed.

End SelectorFacts.

(** ** The memory of the loop and the values it holds *)

Section SelectorMemory.

Variable name : string.

(** With a variable per iteration: the variables are the entries seen,
    the pointer stays inside them, and the value behind it is what
    [distroStep] keeps. *)
Lemma fold_distroIteration_per_iteration
      (l vars : list DiskImage) (ptr : option nat) :
  (forall p, ptr = Some p -> (p < List.length vars)%nat) ->
  let st := fold_left (distroIteration PerIteration name) l
                      (mkDistroState vars ptr) in
  diskimageVars st = (vars ++ l)%list
  /\ (forall p, highestVersionDistro st = Some p ->
                (p < List.length (vars ++ l))%nat)
  /\ option_map (deref (diskimageVars st)) (highestVersionDistro st)
     = fold_left (distroStep name) l (option_map (deref vars) ptr).
Proof.
  revert vars ptr; induction l as [|a l IH]; intros vars ptr Hptr.
  - simpl. rewrite app_nil_r. auto.
  - cbn [fold_left].
    assert (Hnew : deref (vars ++ [a]) (List.length vars) = a)
      by (unfold deref; apply nth_middle).
    assert (Hold : forall p, (p < List.length vars)%nat ->
                             deref (vars ++ [a]) p = deref vars p)
      by (intros p Hp; unfold deref; now apply app_nth1).
    assert (Hstep : exists ptr1,
               distroIteration PerIteration name (mkDistroState vars ptr) a
               = mkDistroState (vars ++ [a]) ptr1
               /\ (forall p, ptr1 = Some p ->
                             (p < List.length (vars ++ [a]))%nat)
               /\ option_map (deref (vars ++ [a])) ptr1
                  = distroStep name (option_map (deref vars) ptr) a).
    { unfold distroIteration, distroStep.
      cbn [diskimageVars highestVersionDistro]. rewrite Hnew.
      assert (Hlen : (List.length vars < List.length (vars ++ [a]))%nat)
        by (rewrite length_app; simpl; lia).
      destruct (strings.Contains (Name a) name).
      - destruct ptr as [p|]; cbn [option_map].
        + rewrite (Hold p (Hptr p eq_refl)).
          destruct (_ <? 0).
          * eexists. split; [reflexivity|]. split.
            -- now intros q [= <-].
            -- cbn [option_map]. now rewrite Hnew.
          * eexists. split; [reflexivity|]. split.
            -- intros q [= <-]. specialize (Hptr p eq_refl). lia.
            -- cbn [option_map]. now rewrite (Hold p (Hptr p eq_refl)).
        + eexists. split; [reflexivity|]. split.
          * now intros q [= <-].
          * cbn [option_map]. now rewrite Hnew.
      - eexists. split; [reflexivity|]. split.
        + intros q ->. specialize (Hptr q eq_refl). lia.
        + destruct ptr as [p|]; cbn [option_map]; [|reflexivity].
          now rewrite (Hold p (Hptr p eq_refl)). }
    destruct Hstep as (ptr1 & -> & Hptr1 & Hval).
    destruct (IH (vars ++ [a])%list ptr1 Hptr1) as (H1 & H2 & H3).
    rewrite <- app_assoc in H1, H2. simpl in H1, H2.
    split; [exact H1|]. split; [exact H2|].
    now rewrite H3, Hval.
Qed.

(** With one variable for the whole loop: the variable holds the last
    entry seen, and the pointer, once a name has matched, points to
    it. *)
Lemma fold_distroIteration_per_loop
      (l vars : list DiskImage) (ptr : option nat) :
  ptr = None \/ ptr = Some O ->
  let st := fold_left (distroIteration PerLoop name) l
                      (mkDistroState vars ptr) in
  diskimageVars st
  = match l with [] => vars | _ :: _ => [last l zeroDiskImage] end
  /\ highestVersionDistro st
     = if match ptr with Some _ => true | None => false end
          || existsb (fun e => strings.Contains (Name e) name) l
       then Some O else None.
Proof.
  revert vars ptr; induction l as [|a l IH]; intros vars ptr Hptr.
  - simpl. split; [reflexivity|].
    destruct Hptr as [->| ->]; reflexivity.
  - cbn [fold_left existsb].
    assert (Hstep :
      distroIteration PerLoop name (mkDistroState vars ptr) a
      = mkDistroState [a]
          (if strings.Contains (Name a) name then Some O else ptr)).
    { unfold distroIteration. cbn [highestVersionDistro deref nth].
      destruct (strings.Contains (Name a) name); [|reflexivity].
      destruct Hptr as [->| ->]; [reflexivity|].
      cbn [nth].
      rewrite (order.cmp_refl _ semverFacts.Comparator_Compare).
      reflexivity. }
    rewrite Hstep.
    destruct (IH [a] (if strings.Contains (Name a) name then Some O else ptr))
      as (H1 & H2).
    { destruct (strings.Contains (Name a) name); auto. }
    split.
    + rewrite H1. destruct l; reflexivity.
    + rewrite H2.
      destruct (strings.Contains (Name a) name);
        destruct Hptr as [->| ->]; reflexivity.
Qed.

End SelectorMemory.

Section SelectorListed.

Variable decodeError : error -> option error.

(** [GetMostRecentDistro] on a listed catalogue, with a variable per
    iteration. *)
Lemma GetMostRecentDistro_per_iteration
      (c : Client) (name : string) (catalog : list DiskImage) :
  ListDiskImages decodeError c [] = (catalog, None) ->
  GetMostRecentDistro decodeError PerIteration c name
  = match fold_left (distroStep name) catalog None with
    | None => (None, Some (fmt_Errorf (name ++ " image not found")))
    | Some highest => (Some highest, None)
    end.
Proof.
  intros Hlist. unfold GetMostRecentDistro. rewrite Hlist.
  destruct (fold_distroIteration_per_iteration name catalog [] None)
    as (_ & _ & H); [discriminate|].
  cbn zeta in *. simpl option_map in H. rewrite <- H.
  destruct (highestVersionDistro _); reflexivity.
Qed.

(** [GetMostRecentDistro] on a listed catalogue, with one variable for
    the whole loop: once a name has matched, the image returned is the
    last entry of the catalogue, whatever its name and its version. *)
Lemma GetMostRecentDistro_per_loop
      (c : Client) (name : string) (catalog : list DiskImage) :
  ListDiskImages decodeError c [] = (catalog, None) ->
  GetMostRecentDistro decodeError PerLoop c name
  = if existsb (fun e => strings.Contains (Name e) name) catalog
    then (Some (last catalog zeroDiskImage), None)
    else (None, Some (fmt_Errorf (name ++ " image not found"))).
Proof.
  intros Hlist. unfold GetMostRecentDistro. rewrite Hlist.
  destruct (fold_distroIteration_per_loop name catalog [] None)
    as (H1 & H2); [now left|].
  cbn zeta in *. rewrite H1, H2. cbn [orb].
  destruct (existsb _ catalog) eqn:Hex; [|reflexivity].
  destruct catalog as [|d l]; [discriminate|]. reflexivity.
Qed.

(** Without a matching name the pointer stays nil, under either
    rule. *)
Lemma GetMostRecentDistro_no_match
      (rule : loopVariables) (c : Client) (name : string)
      (catalog : list DiskImage) :
  ListDiskImages decodeError c [] = (catalog, None) ->
  (forall e, In e catalog -> strings.Contains (Name e) name = false) ->
  GetMostRecentDistro decodeError rule c name
  = (None, Some (fmt_Errorf (name ++ " image not found"))).
Proof.
  intros Hlist Hnone. destruct rule.
  - rewrite (GetMostRecentDistro_per_iteration c name catalog Hlist).
    now rewrite (fold_distroStep_skip name catalog None Hnone).
  - rewrite (GetMostRecentDistro_per_loop c name catalog Hlist).
    destruct (existsb _ catalog) eqn:Hex; [|reflexivity].
    apply existsb_exists in Hex as (e & He & Hm).
    rewrite (Hnone e He) in Hm. discriminate.
Qed.

(** What [GetMostRecentDistro] returns with a variable per iteration
    when some name matches. *)
Lemma GetMostRecentDistro_firstGreatest
      (c : Client) (name : string) (catalog : list DiskImage) :
  ListDiskImages decodeError c [] = (catalog, None) ->
  (exists e, In e catalog /\ strings.Contains (Name e) name = true) ->
  exists r, GetMostRecentDistro decodeError PerIteration c name
            = (Some r, None)
            /\ firstGreatest name catalog r.
Proof.
  intros Hlist Hex.
  destruct (first_satisfying
              (fun e => strings.Contains (Name e) name) catalog Hex)
    as (pre0 & d0 & post0 & Hcat & Hd0 & Hpre0).
  assert (H0 : firstGreatest name (pre0 ++ [d0]) d0).
  { exists pre0, []. split; [reflexivity|]. split; [exact Hd0|]. split.
    - intros e He Hm. apply in_app_or in He as [He|[<-|[]]].
      + rewrite (Hpre0 e He) in Hm. discriminate.
      + rewrite (order.cmp_refl _ semverFacts.Comparator_Compare). lia.
    - intros e He Hm. rewrite (Hpre0 e He) in Hm. discriminate. }
  destruct (fold_distroStep_firstGreatest name post0 _ _ H0)
    as (r & Hfold & Hr).
  rewrite <- app_assoc in Hr. simpl in Hr. rewrite <- Hcat in Hr.
  exists r. split; [|exact Hr].
  rewrite (GetMostRecentDistro_per_iteration c name catalog Hlist), Hcat.
  replace (pre0 ++ d0 :: post0)%list with ((pre0 ++ [d0]) ++ post0)%list
    by now rewrite <- app_assoc.
  rewrite !fold_left_app, (fold_distroStep_skip name pre0 None Hpre0).
  simpl. unfold distroStep at 2. rewrite Hd0, Hfold. reflexivity.
Qed.

Lemma firstGreatest_In (name : string) (l : list DiskImage) (r : DiskImage) :
  firstGreatest name l r -> In r l.
Proof.
  intros (pre & post & -> & _). apply in_or_app. right. now left.
Qed.

(** With a variable per iteration [GetMostRecentDistro] does what its
    comment says: when some entry of the listed catalogue has the given
    string inside its name, it returns such an entry [r] whose version
    no such entry exceeds under [semver.Compare], every such entry
    before [r] having a strictly lower version. *)
Lemma GetMostRecentDistro_per_iteration_returns_first_greatest
      (c : Client) (name : string) (catalog : list DiskImage) :
  ListDiskImages decodeError c [] = (catalog, None) ->
  (exists e, In e catalog /\ strings.Contains (Name e) name = true) ->
  exists pre r post,
    catalog = (pre ++ r :: post)%list
    /\ strings.Contains (Name r) name = true
    /\ (forall e, In e catalog ->
                  strings.Contains (Name e) name = true ->
                  semver.Compare (Version e) (Version r) <= 0)
    /\ (forall e, In e pre ->
                  strings.Contains (Name e) name = true ->
                  semver.Compare (Version e) (Version r) < 0)
    /\ GetMostRecentDistro decodeError PerIteration c name = (Some r, None).
Proof.
  intros Hlist Hex.
  destruct (GetMostRecentDistro_firstGreatest c name catalog Hlist Hex)
    as (r & Hget & pre & post & Hcat & Hm & Hmax & Hpre).
  exists pre, r, post. auto.
Qed.

(** With a variable per iteration and only invalid versions among the
    entries whose name matches, the first of them is returned. *)
Lemma GetMostRecentDistro_per_iteration_invalid_versions
      (c : Client) (name : string)
      (catalog pre post : list DiskImage) (r : DiskImage) :
  ListDiskImages decodeError c [] = (catalog, None) ->
  catalog = (pre ++ r :: post)%list ->
  strings.Contains (Name r) name = true ->
  (forall e, In e pre -> strings.Contains (Name e) name = false) ->
  (forall e, In e catalog -> strings.Contains (Name e) name = true ->
             semver.IsValid (Version e) = false) ->
  GetMostRecentDistro decodeError PerIteration c name = (Some r, None).
Proof.
  intros Hlist Hcat Hr Hpre Hinvalid.
  rewrite (GetMostRecentDistro_per_iteration c name catalog Hlist), Hcat.
  rewrite fold_left_app, (fold_distroStep_skip name pre None Hpre).
  simpl. unfold distroStep at 2. rewrite Hr.
  rewrite fold_distroStep_keep; [reflexivity|].
  intros e He Hm.
  rewrite semverFacts.Compare_invalid; [lia | |].
  - apply Hinvalid; [|exact Hr].
    rewrite Hcat. apply in_or_app. right. now left.
  - apply Hinvalid; [|exact Hm].
    rewrite Hcat. apply in_or_app. right. now right.
Qed.

End SelectorListed.

Section SelectorClaims.

Variable decodeError : error -> option error.


(** C7. When no entry of the listed catalogue has the given string
    inside its name, [GetMostRecentDistro] returns no image and an
    error whose message is the given string followed by
    [" image not found"], under either rule for the loop variable. *)
Theorem GetMostRecentDistro_not_found
        (rule : loopVariables) (c : Client) (name : string)
        (catalog : list DiskImage) :
  ListDiskImages decodeError c [] = (catalog, None) ->
  (forall e, In e catalog -> strings.Contains (Name e) name = false) ->
  GetMostRecentDistro decodeError rule c name
  = (None, Some (fmt_Errorf (name ++ " image not found")))
  /\ strings.Contains (name ++ " image not found") name = true.
Proof.
  intros Hlist Hnone. split.
  - now apply GetMostRecentDistro_no_match with (catalog := catalog).
  - apply (stringsFacts.Contains_infix "" name).
Qed.


End SelectorClaims.

(* ================================================================== *)
(** * The properties on concrete catalogues *)

(** Every member of a concrete list. *)
Ltac each_entry H :=
  simpl in H; repeat (destruct H as [<-|H]); try contradiction.

(** Two closed strings that are not the same. *)
Ltac differ :=
  let E := fresh "E" in intros E; vm_compute in E; discriminate E.

Lemma ListDiskImages_drops_reserved_names_witness :
  ListDiskImages Some (serving ubuntuObjects) [true]
  = ([image "id-bionic" "ubuntu-bionic" "v18.4.0";
      image "id-focal" "ubuntu-focal" "v20.4.0";
      image "id-alpine" "alpine-3" "v3.0.0"], None)
  /\ ListDiskImages Some (serving ubuntuObjects) [false]
     = ListDiskImages Some (serving ubuntuObjects) [true].
Proof.
  split.
  - apply (proj2 (ListDiskImages_drops_reserved_names
                    Some (serving ubuntuObjects) [true])
                 (Array ubuntuObjects) (map decodeObject ubuntuObjects));
      reflexivity.
  - reflexivity.
Defined.

(** The JSON array [[{}]] and the JSON object [{}] decode without
    error to a [DiskImage] whose ID and name are empty. *)
Lemma decoded_DiskImage_with_empty_ID_and_Name :
  ListDiskImages Some (serving [emptyObject]) [] = ([zeroDiskImage], None)
  /\ GetDiskImage Some (servingOne emptyObject) "x"
     = (Some zeroDiskImage, None)
  /\ ID zeroDiskImage = "" /\ Name zeroDiskImage = "".
Proof. repeat split. Qed.

Lemma decoded_images_are_returned_unchecked_witness :
  In zeroDiskImage
     (fst (ListDiskImages Some
             (serving [emptyObject; imageObject "" "talos-1" "v1.0.0"]) []))
  /\ GetDiskImage Some (servingOne (imageObject "" "talos-1" "v1.0.0")) ""
     = (Some (image "" "talos-1" "v1.0.0"), None).
Proof.
  destruct (decoded_images_are_returned_unchecked
              Some (serving [emptyObject; imageObject "" "talos-1" "v1.0.0"])
              [] "") as [Hlist _].
  destruct (decoded_images_are_returned_unchecked
              Some (servingOne (imageObject "" "talos-1" "v1.0.0"))
              [] "") as [_ Hget].
  split.
  - destruct (Hlist (Array [emptyObject; imageObject "" "talos-1" "v1.0.0"])
                    (map decodeObject
                         [emptyObject; imageObject "" "talos-1" "v1.0.0"])
                    eq_refl eq_refl) as (_ & _ & Hempty).
    apply Hempty; [now left | reflexivity].
  - apply (Hget (Object (imageObject "" "talos-1" "v1.0.0"))
                (Some (image "" "talos-1" "v1.0.0")));
      reflexivity.
Defined.

Lemma FindDiskImage_returns_last_exact_match_witness :
  exists pre d post,
    fst (ListDiskImages Some (serving ubuntuObjects) [])
    = (pre ++ d :: post)%list
    /\ (Name d = "ubuntu-focal" \/ ID d = "ubuntu-focal")
    /\ (forall e, In e post ->
                  Name e <> "ubuntu-focal" /\ ID e <> "ubuntu-focal")
    /\ FindDiskImage Some (serving ubuntuObjects) "ubuntu-focal"
       = (Some d, None).
Proof.
  apply (FindDiskImage_returns_last_exact_match
           Some (serving ubuntuObjects) "ubuntu-focal").
  - reflexivity.
  - exists (image "id-focal" "ubuntu-focal" "v20.4.0").
    split; [simpl; auto | left; reflexivity].
Defined.

Lemma FindDiskImage_errors_without_exact_match_witness :
  FindDiskImage Some (serving debianObjects) "deb"
  = (None,
     Some (wrapError MultipleMatchesError
             (fmt_Errorf "unable to find deb because there were multiple matches")))
  /\ FindDiskImage Some (serving debianObjects) "freebsd"
     = (None,
        Some (wrapError ZeroMatchesError
                (fmt_Errorf "unable to find freebsd, zero matches"))).
Proof.
  split.
  - apply (FindDiskImage_errors_without_exact_match
             Some (serving debianObjects) "deb"
             (map decodeObject debianObjects)).
    + reflexivity.
    + unfold maxInt. simpl. lia.
    + intros e He. each_entry He; split; differ.
    + exists [], (image "id-a" "debian" "v1.2.0"), [],
        (image "id-b" "debian" "v1.10.0"),
        [image "id-c" "debian-next" "v1.10.0+build.7";
         image "id-d" "centos" "v7.0.0"].
      split; [reflexivity | split; left; reflexivity].
  - apply (FindDiskImage_errors_without_exact_match
             Some (serving debianObjects) "freebsd"
             (map decodeObject debianObjects)).
    + reflexivity.
    + unfold maxInt. simpl. lia.
    + intros e He. each_entry He; split; differ.
    + intros e He. each_entry He; split; reflexivity.
Defined.

Lemma FindDiskImage_returns_single_partial_match_witness :
  FindDiskImage Some (serving ubuntuObjects) "alpine"
  = (Some (image "id-alpine" "alpine-3" "v3.0.0"), None).
Proof.
  apply (FindDiskImage_returns_single_partial_match
           Some (serving ubuntuObjects) "alpine"
           (fst (ListDiskImages Some (serving ubuntuObjects) []))
           [image "id-bionic" "ubuntu-bionic" "v18.4.0";
            image "id-focal" "ubuntu-focal" "v20.4.0"] []).
  - reflexivity.
  - reflexivity.
  - intros e He. each_entry He; split; differ.
  - left. reflexivity.
  - intros e He. each_entry He; split; reflexivity.
Defined.

Lemma FindDiskImage_empty_search_is_ambiguous_witness :
  FindDiskImage Some (serving ubuntuObjects) ""
  = (None,
     Some (wrapError MultipleMatchesError
             (fmt_Errorf "unable to find  because there were multiple matches"))).
Proof.
  apply (FindDiskImage_empty_search_is_ambiguous
           Some (serving ubuntuObjects)
           (fst (ListDiskImages Some (serving ubuntuObjects) []))).
  - reflexivity.
  - simpl. lia.
  - unfold maxInt. simpl. lia.
  - intros e He. each_entry He; split; differ.
Defined.

Lemma GetDiskImageByName_first_match_or_not_found_witness :
  GetDiskImageByName Some (serving debianObjects) "debian"
  = (Some (image "id-a" "debian" "v1.2.0"), None)
  /\ GetDiskImageByName Some (serving debianObjects) "deb"
     = (None, Some (errors_New "diskimage not found")).
Proof.
  split.
  - apply (proj1 (GetDiskImageByName_first_match_or_not_found
                    Some (serving debianObjects) "debian"
                    (map decodeObject debianObjects) eq_refl)
                 [] (image "id-a" "debian" "v1.2.0")
                 (map decodeObject (tl debianObjects))).
    + reflexivity.
    + reflexivity.
    + intros e [].
  - apply (proj2 (GetDiskImageByName_first_match_or_not_found
                    Some (serving debianObjects) "deb"
                    (map decodeObject debianObjects) eq_refl)).
    intros e He. each_entry He; differ.
Defined.

Lemma GetMostRecentDistro_not_found_witness :
  GetMostRecentDistro Some PerLoop (serving debianObjects) "nonexistent"
  = (None, Some (fmt_Errorf "nonexistent image not found"))
  /\ strings.Contains "nonexistent image not found" "nonexistent" = true.
Proof.
  apply (GetMostRecentDistro_not_found
           Some PerLoop (serving debianObjects) "nonexistent"
           (map decodeObject debianObjects)).
  - reflexivity.
  - intros e He. each_entry He; reflexivity.
Defined.

(** With a variable per iteration, which entry the first-greatest rule
    selects among the [debianObjects]: the first of the two entries at
    [v1.10.0], build metadata being ignored; and [v1.2.0] is below
    [v1.10.0]. *)
Example GetMostRecentDistro_debian :
  GetMostRecentDistro Some PerIteration (serving debianObjects) "debian"
  = (Some (image "id-b" "debian" "v1.10.0"), None)
  /\ semver.Compare "v1.2.0" "v1.10.0" = -1
  /\ semver.Compare "v1.10.0" "v1.10.0+build.7" = 0.
Proof.
  split; [|split; reflexivity].
  now rewrite (GetMostRecentDistro_per_iteration
                 Some (serving debianObjects) "debian"
                 (map decodeObject debianObjects) eq_refl).
Qed.

(** The precedence chain of the semantic versioning document. *)
Example Compare_prerelease_chain :
  map (fun p => semver.Compare (fst p) (snd p))
      [("v1.0.0-alpha", "v1.0.0-alpha.1");
       ("v1.0.0-alpha.1", "v1.0.0-alpha.beta");
       ("v1.0.0-alpha.beta", "v1.0.0-beta");
       ("v1.0.0-beta", "v1.0.0-beta.2");
       ("v1.0.0-beta.2", "v1.0.0-beta.11");
       ("v1.0.0-beta.11", "v1.0.0-rc.1");
       ("v1.0.0-rc.1", "v1.0.0")]
  = [-1; -1; -1; -1; -1; -1; -1].
Proof. reflexivity. Qed.

(* ================================================================== *)
(** * Further properties: substrings *)

Module substringFacts.
Import strings stringsFacts.

Lemma append_assoc (a b c : string) : (a ++ b) ++ c = a ++ (b ++ c).
Proof.
  induction a as [|x a IH]; simpl; [reflexivity | now rewrite IH].
Qed.

(** A substring of a substring is a substring. *)
Lemma Contains_trans (s t u : string) :
  Contains s t = true -> Contains t u = true -> Contains s u = true.
Proof.
  rewrite !Contains_spec. intros (a & b & ->) (a' & b' & ->).
  exists (a ++ a'), (b' ++ b). now rewrite !append_assoc.
Qed.

Lemma HasPrefix_occurs (sub b : string) (s : string) :
  s = sub ++ b -> HasPrefix s sub = true.
Proof. intros ->. apply HasPrefix_app. Qed.

(** The scan from offset [i]: either [substr] does not occur and the
    result is [-1], or the result is [i] plus the length of what
    stands before the first occurrence. *)
Lemma indexFrom_first (substr s : string) (i : Z) :
  (indexFrom i s substr = -1 /\ forall a b, s <> a ++ substr ++ b)
  \/ exists a b,
      s = a ++ substr ++ b
      /\ indexFrom i s substr = i + Z.of_nat (String.length a)
      /\ forall a' b', s = a' ++ substr ++ b' ->
                       (String.length a <= String.length a')%nat.
Proof.
  revert i; induction s as [|c s IH]; intros i; cbn [indexFrom].
  - destruct (HasPrefix "" substr) eqn:Hp.
    + right. destruct (HasPrefix_inv _ _ Hp) as [b Hb].
      exists "", b. repeat split; [exact Hb | simpl; lia | simpl; lia].
    + left. split; [reflexivity|]. intros a b Hab.
      destruct a; [|discriminate]. simpl in Hab.
      rewrite (HasPrefix_occurs substr b "" Hab) in Hp. discriminate.
  - destruct (HasPrefix (String c s) substr) eqn:Hp.
    + right. destruct (HasPrefix_inv _ _ Hp) as [b Hb].
      exists "", b. repeat split; [exact Hb | simpl; lia | simpl; lia].
    + destruct (IH (i + 1)) as [[Hi Hno]|(a & b & Hs & Hi & Hmin)].
      * left. split; [exact Hi|]. intros a b Hab.
        destruct a as [|c' a]; simpl in Hab.
        -- rewrite (HasPrefix_occurs substr b _ Hab) in Hp. discriminate.
        -- injection Hab as _ Hab. now apply (Hno a b).
      * right. exists (String c a), b. split; [now rewrite Hs|].
        split; [rewrite Hi; cbn [String.length]; lia|].
        intros a' b' Hab. destruct a' as [|c' a']; simpl in Hab.
        -- rewrite (HasPrefix_occurs substr b' _ Hab) in Hp. discriminate.
        -- injection Hab as _ Hab. specialize (Hmin a' b' Hab).
           cbn [String.length]. lia.
Qed.

End substringFacts.

(** X1. [strings.Index] returns [-1] exactly when the substring does
    not occur, and otherwise the offset of its first occurrence; so
    [strings.Contains], the test used by the filter and by the lookups,
    holds exactly when the substring occurs. *)
Theorem Index_is_first_occurrence (s substr : string) :
  ((strings.Index s substr = -1 /\ strings.Contains s substr = false
    /\ forall a b, s <> a ++ substr ++ b)
   \/ exists a b,
       s = a ++ substr ++ b
       /\ strings.Index s substr = Z.of_nat (String.length a)
       /\ strings.Contains s substr = true
       /\ forall a' b', s = a' ++ substr ++ b' ->
                        (String.length a <= String.length a')%nat).
Proof.
  unfold strings.Contains, strings.Index.
  destruct (substringFacts.indexFrom_first substr s 0)
    as [[Hi Hno]|(a & b & Hs & Hi & Hmin)].
  - left. rewrite Hi. repeat split; assumption.
  - right. exists a, b. rewrite Hi. repeat split; try assumption.
    apply Z.leb_le. lia.
Qed.

(* ================================================================== *)
(** * Further properties: the lookups and the listing they start with *)

Section LookupFacts.

Variable decodeError : error -> option error.

(** The three lookups list the default catalogue, with no flag. *)
Lemma ListDiskImages_default_depends (c1 c2 : Client) :
  SendGetRequest c1 "/v2/disk_images" = SendGetRequest c2 "/v2/disk_images" ->
  ListDiskImages decodeError c1 [] = ListDiskImages decodeError c2 [].
Proof. intros H. unfold ListDiskImages. now rewrite H. Qed.

(** The loop of [FindDiskImage] keeps in [result] an entry it has seen
    and that the search string matches, unless nothing matched yet. *)
Lemma fold_findStep_member (search : string) (l seen : list DiskImage)
      (st : findState) :
  (In (result st) seen
   /\ (isExact search (result st) = true
       \/ isPartial search (result st) = true))
  \/ (exactMatch st = false /\ partialMatchesCount st = 0) ->
  let st' := fold_left (findStep search) l st in
  (In (result st') (seen ++ l)
   /\ (isExact search (result st') = true
       \/ isPartial search (result st') = true))
  \/ (exactMatch st' = false /\ partialMatchesCount st' = 0).
Proof.
  revert seen st; induction l as [|d l IH]; intros seen st H.
  - simpl. now rewrite app_nil_r.
  - cbn [fold_left].
    replace (seen ++ d :: l)%list with ((seen ++ [d]) ++ l)%list
      by now rewrite <- app_assoc.
    apply IH. rewrite findStep_cases.
    destruct (isExact search d) eqn:He; cbn [result].
    + left. split; [apply in_or_app; right; now left | now left].
    + destruct (isPartial search d) eqn:Hp; cbn [andb].
      * destruct (exactMatch st) eqn:Hx; cbn [negb result].
        -- destruct H as [[Hin Hm]|[Hf _]]; [|congruence].
           left. split; [apply in_or_app; now left | exact Hm].
        -- left. split; [apply in_or_app; right; now left | now right].
      * destruct H as [[Hin Hm]|H]; [|now right].
        left. split; [apply in_or_app; now left | exact Hm].
Qed.

(** An exact match makes [FindDiskImage] succeed. *)
Lemma FindDiskImage_exact_success (c : Client) (search : string)
      (catalog : list DiskImage) :
  ListDiskImages decodeError c [] = (catalog, None) ->
  (exists e, In e catalog /\ isExact search e = true) ->
  exists d, In d catalog /\ isExact search d = true
            /\ FindDiskImage decodeError c search = (Some d, None).
Proof.
  intros Hlist Hex.
  destruct (last_satisfying (isExact search) catalog Hex)
    as (pre & d & post & Hcat & Hd & Hpost).
  exists d. split; [rewrite Hcat; apply in_or_app; right; now left|].
  split; [exact Hd|].
  rewrite (FindDiskImage_listed _ _ _ _ Hlist). subst catalog.
  replace (pre ++ d :: post)%list with ((pre ++ [d]) ++ post)%list
    by now rewrite <- app_assoc.
  rewrite fold_left_app.
  destruct (fold_findStep_exact search pre d
              (mkFindState false 0 zeroDiskImage) Hd) as [n ->].
  rewrite fold_findStep_sticky by (assumption || reflexivity).
  reflexivity.
Qed.

Lemma firstNamed_Some (name : string) (l : list DiskImage) (d : DiskImage) :
  firstNamed name l = Some d -> In d l /\ Name d = name.
Proof.
  induction l as [|a l IH]; [discriminate|]. simpl.
  destruct (String.eqb_spec (Name a) name) as [E|E].
  - intros [= <-]. split; [now left | exact E].
  - intros H. destruct (IH H). split; [now right | assumption].
Qed.

Lemma exact_is_partial (search : string) (d : DiskImage) :
  isExact search d = true -> isPartial search d = true.
Proof.
  intros H. apply isExact_true in H. apply isPartial_true.
  destruct H as [<-|<-]; [left | right]; apply stringsFacts.Contains_self.
Qed.

(** X2. The three lookups read the default catalogue only: two clients
    that answer the request for ["/v2/disk_images"] alike give the same
    result, whatever they answer elsewhere (the custom catalogue
    included) and whatever the rule for the loop variable. *)
Theorem lookups_read_the_default_catalogue_only
        (rule : loopVariables) (c1 c2 : Client) (s : string) :
  SendGetRequest c1 "/v2/disk_images" = SendGetRequest c2 "/v2/disk_images" ->
  FindDiskImage decodeError c1 s = FindDiskImage decodeError c2 s
  /\ GetDiskImageByName decodeError c1 s = GetDiskImageByName decodeError c2 s
  /\ GetMostRecentDistro decodeError rule c1 s
     = GetMostRecentDistro decodeError rule c2 s.
Proof.
  intros H. apply ListDiskImages_default_depends in H.
  unfold FindDiskImage, GetDiskImageByName, GetMostRecentDistro.
  rewrite H. repeat split.
Qed.

(** X3. Whatever error the listing returns, each of the three lookups
    returns no image and that error passed through [decodeError] once
    more; so an error of the JSON decoder, which [ListDiskImages]
    returns as it is, reaches the caller of a lookup classified. *)
Theorem lookups_classify_the_listing_error
        (rule : loopVariables) (c : Client) (s : string) (e : error) :
  snd (ListDiskImages decodeError c []) = Some e ->
  FindDiskImage decodeError c s = (None, decodeError e)
  /\ GetDiskImageByName decodeError c s = (None, decodeError e)
  /\ GetMostRecentDistro decodeError rule c s = (None, decodeError e)
  /\ (forall resp,
         SendGetRequest c "/v2/disk_images" = (resp, None) ->
         ListDiskImages decodeError c [] = ([], Some e)
         /\ snd (decodeDiskImages resp) = Some e).
Proof.
  intros H.
  unfold FindDiskImage, GetDiskImageByName, GetMostRecentDistro.
  destruct (ListDiskImages decodeError c []) as [l [e'|]] eqn:Hl;
    simpl in H; [|discriminate].
  injection H as ->. repeat split.
  - unfold ListDiskImages in Hl. simpl in Hl. rewrite H in Hl.
    destruct (decodeDiskImages resp) as [l' [e'|]]; [|discriminate].
    now injection Hl as <- <-.
  - unfold ListDiskImages in Hl. simpl in Hl. rewrite H in Hl.
    destruct (decodeDiskImages resp) as [l' [e'|]]; [|discriminate].
    now injection Hl as _ <-.
Qed.

(** X4. An image returned by [FindDiskImage] comes with no error, is an
    entry of the listed catalogue, has the search string inside its
    name or its ID, and has no reserved substring in its name. *)
Theorem FindDiskImage_returns_a_matching_entry
        (c : Client) (search : string) (d : DiskImage) (err : option error) :
  FindDiskImage decodeError c search = (Some d, err) ->
  err = None
  /\ In d (fst (ListDiskImages decodeError c []))
  /\ (strings.Contains (Name d) search = true
      \/ strings.Contains (ID d) search = true)
  /\ strings.Contains (Name d) "k3s" = false
  /\ strings.Contains (Name d) "talos" = false.
Proof.
  intros H.
  pose proof (ListDiskImages_notReserved decodeError c []) as Hres.
  destruct (ListDiskImages decodeError c []) as [catalog [e|]] eqn:Hlist.
  { unfold FindDiskImage in H. rewrite Hlist in H. discriminate. }
  rewrite (FindDiskImage_listed _ _ _ _ Hlist) in H. cbn zeta in H.
  pose proof (fold_findStep_member search catalog []
                (mkFindState false 0 zeroDiskImage)
                (or_intror (conj eq_refl eq_refl))) as Hinv.
  cbn zeta in Hinv. simpl app in Hinv.
  destruct (fold_left (findStep search) catalog _) as [x n r].
  cbn [exactMatch partialMatchesCount result] in *.
  assert (Hok : x || (n =? 1) = true /\ r = d /\ err = None).
  { destruct (x || (n =? 1)); [now injection H as -> <-|].
    destruct (n >? 1); discriminate. }
  destruct Hok as (Hok & -> & ->).
  destruct Hinv as [[Hin Hm]|[-> ->]]; [|discriminate].
  split; [reflexivity|]. split; [exact Hin|].
  assert (Hp : isPartial search d = true)
    by (destruct Hm; [now apply exact_is_partial | assumption]).
  split; [now apply isPartial_true|].
  simpl in Hres. rewrite Forall_forall in Hres.
  now apply notReserved_iff, Hres.
Qed.

End LookupFacts.

Section ResolverFacts.

Variable decodeError : error -> option error.

(** [FindDiskImage] on a listed catalogue without exact match, by the
    number of partial matches. *)
Lemma FindDiskImage_by_count (c : Client) (search : string)
      (catalog : list DiskImage) :
  ListDiskImages decodeError c [] = (catalog, None) ->
  Z.of_nat (List.length catalog) <= maxInt ->
  (forall e, In e catalog -> isExact search e = false) ->
  FindDiskImage decodeError c search =
  let n := Z.of_nat (List.length (filter (isPartial search) catalog)) in
  if n =? 1 then
    (Some (last (filter (isPartial search) catalog) zeroDiskImage), None)
  else if n >? 1 then
    (None, Some (wrapError MultipleMatchesError
       (fmt_Errorf ("unable to find " ++ search
                    ++ " because there were multiple matches"))))
  else
    (None, Some (wrapError ZeroMatchesError
       (fmt_Errorf ("unable to find " ++ search ++ ", zero matches")))).
Proof.
  intros Hlist Hlen Hno.
  pose proof (length_filter_le (isPartial search) catalog) as Hle.
  rewrite (FindDiskImage_listed _ _ _ _ Hlist).
  rewrite (fold_findStep_partial search catalog
             (mkFindState false 0 zeroDiskImage) eq_refl);
    cbn [partialMatchesCount result]; try lia.
  - reflexivity.
  - now apply Forall_forall.
Qed.

(** X5. What an error of [FindDiskImage] says about the listed
    catalogue: after the zero-matches error no entry has the search
    string inside its name or its ID; after the multiple-matches error
    no entry has it as its name or its ID and two entries or more have
    it inside. *)
Theorem FindDiskImage_errors_describe_the_catalogue
        (c : Client) (search : string) (catalog : list DiskImage)
        (r : option DiskImage) (inner : error) :
  ListDiskImages decodeError c [] = (catalog, None) ->
  Z.of_nat (List.length catalog) <= maxInt ->
  (FindDiskImage decodeError c search
   = (r, Some (wrapError ZeroMatchesError inner)) ->
   forall e, In e catalog ->
             strings.Contains (Name e) search = false
             /\ strings.Contains (ID e) search = false)
  /\ (FindDiskImage decodeError c search
      = (r, Some (wrapError MultipleMatchesError inner)) ->
      (forall e, In e catalog -> Name e <> search /\ ID e <> search)
      /\ (2 <= List.length (filter (isPartial search) catalog))%nat).
Proof.
  intros Hlist Hlen.
  destruct (existsb (isExact search) catalog) eqn:Hex.
  - apply existsb_exists in Hex.
    destruct (FindDiskImage_exact_success decodeError c search catalog
                Hlist Hex) as (d & _ & _ & ->).
    split; discriminate.
  - assert (Hno : forall e, In e catalog -> isExact search e = false).
    { intros e He. destruct (isExact search e) eqn:E; [|reflexivity].
      rewrite <- Hex. symmetry. apply existsb_exists. eauto. }
    rewrite (FindDiskImage_by_count c search catalog Hlist Hlen Hno).
    cbn zeta.
    destruct (filter (isPartial search) catalog) as [|a [|b l]] eqn:Hf.
    + simpl. split; [|discriminate]. intros _ e He.
      apply isPartial_false.
      destruct (isPartial search e) eqn:Hp; [|reflexivity].
      assert (Hin : In e (filter (isPartial search) catalog))
        by (apply filter_In; auto).
      rewrite Hf in Hin. destruct Hin.
    + simpl. split; discriminate.
    + destruct (_ =? 1) eqn:E1;
        [apply Z.eqb_eq in E1; cbn [List.length] in E1; lia|].
      destruct (_ >? 1) eqn:E2.
      * split; [discriminate|]. intros _. split.
        -- intros e He. now apply isExact_false, Hno.
        -- simpl. lia.
      * rewrite Z.gtb_ltb in E2. apply Z.ltb_ge in E2.
        cbn [List.length] in E2. lia.
Qed.

(** X6. Round trip on an entry [d] of the listed catalogue: when no
    other entry has the ID of [d] as its name or its ID,
    [FindDiskImage] on that ID returns [d]; when no other entry has the
    name of [d] as its name or its ID, [FindDiskImage] and
    [GetDiskImageByName] on that name both return [d]. *)
Theorem lookups_find_a_listed_entry_again
        (c : Client) (catalog pre post : list DiskImage) (d : DiskImage) :
  ListDiskImages decodeError c [] = (catalog, None) ->
  catalog = (pre ++ d :: post)%list ->
  ((forall e, In e (pre ++ post)%list -> Name e <> ID d /\ ID e <> ID d) ->
   FindDiskImage decodeError c (ID d) = (Some d, None))
  /\ ((forall e, In e (pre ++ post)%list ->
                 Name e <> Name d /\ ID e <> Name d) ->
      FindDiskImage decodeError c (Name d) = (Some d, None)
      /\ GetDiskImageByName decodeError c (Name d) = (Some d, None)).
Proof.
  intros Hlist Hcat.
  assert (Hfind : forall s,
             isExact s d = true ->
             (forall e, In e (pre ++ post)%list -> Name e <> s /\ ID e <> s) ->
             FindDiskImage decodeError c s = (Some d, None)).
  { intros s Hd Hothers.
    rewrite (FindDiskImage_listed _ _ _ _ Hlist), Hcat.
    replace (pre ++ d :: post)%list with ((pre ++ [d]) ++ post)%list
      by now rewrite <- app_assoc.
    rewrite fold_left_app.
    destruct (fold_findStep_exact s pre d
                (mkFindState false 0 zeroDiskImage) Hd) as [n ->].
    rewrite fold_findStep_sticky; [reflexivity | reflexivity |].
    apply Forall_forall. intros e He.
    apply isExact_false, Hothers, in_or_app. now right. }
  split.
  - intros Hothers. apply Hfind; [|exact Hothers].
    apply isExact_true. now right.
  - intros Hothers. split.
    + apply Hfind; [|exact Hothers]. apply isExact_true. now left.
    + unfold GetDiskImageByName. rewrite Hlist, Hcat.
      rewrite firstNamed_skip.
      * simpl. now rewrite String.eqb_refl.
      * intros e He. apply Hothers, in_or_app. now left.
Qed.

(** X7. Whenever [GetDiskImageByName] finds an image for a name,
    [FindDiskImage] on that name finds one too, whose name or ID is
    that name: the resolver is never ambiguous on the name of a listed
    entry. *)
Theorem GetDiskImageByName_success_implies_FindDiskImage_success
        (c : Client) (name : string) (d : DiskImage) (err : option error) :
  GetDiskImageByName decodeError c name = (Some d, err) ->
  Name d = name
  /\ exists d', FindDiskImage decodeError c name = (Some d', None)
                /\ (Name d' = name \/ ID d' = name).
Proof.
  unfold GetDiskImageByName.
  destruct (ListDiskImages decodeError c []) as [catalog [e|]] eqn:Hlist;
    [discriminate|].
  destruct (firstNamed name catalog) as [x|] eqn:Hfirst; [|discriminate].
  intros [= -> _]. apply firstNamed_Some in Hfirst as [Hin Hname].
  split; [exact Hname|].
  destruct (FindDiskImage_exact_success decodeError c name catalog Hlist)
    as (d' & _ & Hd' & Hfind).
  { exists d. split; [exact Hin|]. apply isExact_true. now left. }
  exists d'. split; [exact Hfind | now apply isExact_true].
Qed.

(** X8. A name that has ["k3s"] or ["talos"] inside never leads to an
    image: on a listed catalogue, [GetDiskImageByName] and
    [GetMostRecentDistro] both answer with their not-found error,
    under either rule for the loop variable. *)
Theorem reserved_names_are_never_found
        (rule : loopVariables) (c : Client) (name : string)
        (catalog : list DiskImage) :
  ListDiskImages decodeError c [] = (catalog, None) ->
  strings.Contains name "k3s" = true
  \/ strings.Contains name "talos" = true ->
  GetDiskImageByName decodeError c name
  = (None, Some (errors_New "diskimage not found"))
  /\ GetMostRecentDistro decodeError rule c name
     = (None, Some (fmt_Errorf (name ++ " image not found"))).
Proof.
  intros Hlist Hname.
  pose proof (ListDiskImages_notReserved decodeError c []) as Hres.
  rewrite Hlist in Hres. simpl in Hres. rewrite Forall_forall in Hres.
  assert (Hnone : forall e, In e catalog ->
                            strings.Contains (Name e) name = false).
  { intros e He. apply Hres, notReserved_iff in He as [Hk Ht].
    destruct (strings.Contains (Name e) name) eqn:Hc; [|reflexivity].
    destruct Hname as [Hn|Hn];
      pose proof (substringFacts.Contains_trans _ _ _ Hc Hn); congruence. }
  split.
  - unfold GetDiskImageByName. rewrite Hlist.
    rewrite <- (app_nil_r catalog), firstNamed_skip; [reflexivity|].
    intros e He Heq. specialize (Hnone e He).
    rewrite Heq, stringsFacts.Contains_self in Hnone. discriminate.
  - now apply GetMostRecentDistro_no_match with (catalog := catalog).
Qed.

End ResolverFacts.

(* ================================================================== *)
(** * Further properties: the order of versions *)

From Stdlib Require Import Permutation.

Module versionFacts.
Import semver order orderFacts semverFacts.

Lemma listCmp_identCmp_zero (l1 l2 : list string) :
  listCmp identCmp l1 l2 = 0 -> l1 = l2.
Proof.
  revert l2; induction l1 as [|a l1 IH]; intros [|b l2]; simpl;
    try discriminate; [reflexivity|].
  case_zero (identCmp a b) E; [|intros H; contradiction].
  apply identCmp_zero in E. subst b. intros H. now rewrite (IH l2 H).
Qed.

(** Two pre-release fields left by [parse] that compare equal are the
    same string. *)
Lemma comparePrerelease_zero (x y : string) :
  x = "" \/ startsWith "-" x = true ->
  y = "" \/ startsWith "-" y = true ->
  comparePrerelease x y = 0 -> x = y.
Proof.
  intros Hx Hy. rewrite (comparePrerelease_prereleaseCmp x y Hx Hy).
  destruct x as [|cx rx], y as [|cy ry]; simpl; try discriminate;
    [reflexivity|].
  destruct Hx as [Hx|Hx]; [discriminate|].
  destruct Hy as [Hy|Hy]; [discriminate|].
  simpl in Hx, Hy. apply Ascii.eqb_eq in Hx, Hy. subst cx cy.
  intros H. apply listCmp_identCmp_zero, splitDots_inj in H. now subst.
Qed.

Lemma compareInt_zero (x y : string) : compareInt x y = 0 <-> x = y.
Proof.
  split.
  - rewrite compareInt_intCmp. apply intCmp_zero.
  - intros ->. rewrite compareInt_intCmp.
    apply (cmp_refl intCmp Comparator_int).
Qed.

Lemma comparePrerelease_refl (x : string) : comparePrerelease x x = 0.
Proof. unfold comparePrerelease. now rewrite String.eqb_refl. Qed.

(** A valid version is above an invalid one. *)
Lemma Compare_valid_invalid (v w : string) :
  IsValid v = true -> IsValid w = false -> Compare v w = 1.
Proof.
  unfold IsValid, Compare.
  destruct (parse v); [|discriminate].
  destruct (parse w); [discriminate | reflexivity].
Qed.

End versionFacts.

(** X9. [semver.Compare] orders the version strings along a total
    preorder: it returns [-1], [0] or [+1], a version compares equal to
    itself, swapping the arguments changes the sign, and "not above" is
    transitive. *)
Theorem Compare_is_a_total_preorder (u v w : string) :
  (semver.Compare v w = -1 \/ semver.Compare v w = 0
   \/ semver.Compare v w = 1)
  /\ semver.Compare v v = 0
  /\ semver.Compare w v = - semver.Compare v w
  /\ (semver.Compare u v <= 0 -> semver.Compare v w <= 0 ->
      semver.Compare u w <= 0).
Proof.
  pose proof semverFacts.Comparator_Compare as C.
  split; [|split; [|split]].
  - pose proof (order.cmp_range _ C v w). lia.
  - apply (order.cmp_refl _ C).
  - apply (order.cmp_opp _ C).
  - apply (orderFacts.cmp_le_trans _ C).
Qed.

(** X10. Two valid versions compare equal exactly when [parse] reads
    the same major, minor, patch and pre-release in them: the build
    metadata and the short forms ([v1] for [v1.0.0]) make no
    difference, anything else does. *)
Theorem Compare_zero_iff_same_fields (v w : string) (pv pw : semver.parsed) :
  semver.parse v = Some pv ->
  semver.parse w = Some pw ->
  (semver.Compare v w = 0
   <-> semver.major pv = semver.major pw
       /\ semver.minor pv = semver.minor pw
       /\ semver.patch pv = semver.patch pw
       /\ semver.prerelease pv = semver.prerelease pw).
Proof.
  intros Hv Hw. unfold semver.Compare. rewrite Hv, Hw.
  apply semverFacts.parse_shape in Hv, Hw.
  split.
  - destruct (semver.compareInt (semver.major pv) (semver.major pw) =? 0)
      eqn:E1; cbn [negb]; [|apply Z.eqb_neq in E1; intros; lia].
    destruct (semver.compareInt (semver.minor pv) (semver.minor pw) =? 0)
      eqn:E2; cbn [negb]; [|apply Z.eqb_neq in E2; intros; lia].
    destruct (semver.compareInt (semver.patch pv) (semver.patch pw) =? 0)
      eqn:E3; cbn [negb]; [|apply Z.eqb_neq in E3; intros; lia].
    apply Z.eqb_eq, versionFacts.compareInt_zero in E1, E2, E3.
    intros H. repeat split; try assumption.
    now apply versionFacts.comparePrerelease_zero.
  - intros (-> & -> & -> & ->).
    rewrite !(proj2 (versionFacts.compareInt_zero _ _) eq_refl).
    cbn [Z.eqb negb]. apply versionFacts.comparePrerelease_refl.
Qed.

(** X11. The loop inside [comparePrerelease] never runs short of
    iterations: with [String.length x] of them it ends and returns
    [-1] or [+1]. *)
Theorem comparePrerelease_loop_terminates (x y : string) :
  semver.prereleaseCompareLoop (String.length x) x y = Some (-1)
  \/ semver.prereleaseCompareLoop (String.length x) x y = Some 1.
Proof.
  assert (H : forall fuel x y,
             (String.length x <= fuel)%nat ->
             semver.prereleaseCompareLoop fuel x y = Some (-1)
             \/ semver.prereleaseCompareLoop fuel x y = Some 1).
  { clear x y. induction fuel as [|fuel IH]; intros x y Hlen.
    - destruct x as [|cx rx]; [|simpl in Hlen; lia]. now left.
    - destruct x as [|cx rx]; [now left|].
      destruct y as [|cy ry]; [now right|].
      cbn [semver.prereleaseCompareLoop String.eqb negb andb
           semver.sliceFrom].
      destruct (semverFacts.nextIdent_spec rx) as [_ Hlx].
      destruct (semver.nextIdent rx) as [dx x'],
               (semver.nextIdent ry) as [dy y'].
      cbn [snd] in Hlx.
      destruct (String.eqb_spec dx dy) as [->|Hd]; cbn [negb].
      + apply IH. simpl in Hlen. lia.
      + unfold semver.compareIdent.
        destruct (negb (Bool.eqb (semver.isNum dx) (semver.isNum dy)));
          [destruct (semver.isNum dx); auto|].
        destruct (semver.isNum dx && _); [auto|].
        destruct (semver.isNum dx && _); [auto|].
        destruct (semver.strLess dx dy); auto. }
  apply H. lia.
Qed.

(* ================================================================== *)
(** * Further properties: the version selector *)

Section SelectorMoreFacts.

Variable decodeError : error -> option error.

(** X12. On two listed catalogues that are permutations of each other
    [GetMostRecentDistro] either fails on both with the same error or
    succeeds on both.  With a variable per iteration the two images
    returned have versions that compare equal: the version selected
    does not depend on the order of the catalogue.  With one variable
    for the whole loop each image is the last entry of its catalogue:
    the order decides. *)
Theorem GetMostRecentDistro_on_permuted_catalogues
        (rule : loopVariables) (c1 c2 : Client) (name : string)
        (catalog1 catalog2 : list DiskImage) :
  ListDiskImages decodeError c1 [] = (catalog1, None) ->
  ListDiskImages decodeError c2 [] = (catalog2, None) ->
  Permutation catalog1 catalog2 ->
  (exists r1 r2,
      GetMostRecentDistro decodeError rule c1 name = (Some r1, None)
      /\ GetMostRecentDistro decodeError rule c2 name = (Some r2, None)
      /\ match rule with
         | PerIteration => semver.Compare (Version r1) (Version r2) = 0
         | PerLoop => r1 = last catalog1 zeroDiskImage
                      /\ r2 = last catalog2 zeroDiskImage
         end)
  \/ (GetMostRecentDistro decodeError rule c1 name
      = (None, Some (fmt_Errorf (name ++ " image not found")))
      /\ GetMostRecentDistro decodeError rule c2 name
         = (None, Some (fmt_Errorf (name ++ " image not found")))).
Proof.
  intros H1 H2 Hperm.
  destruct (existsb (fun e => strings.Contains (Name e) name) catalog1)
    eqn:Hex.
  - left. pose proof Hex as Hex1. apply existsb_exists in Hex.
    assert (Hex2 : exists e, In e catalog2
                             /\ strings.Contains (Name e) name = true).
    { destruct Hex as (e & He & Hm). exists e.
      split; [now apply (Permutation_in e Hperm) | exact Hm]. }
    destruct rule.
    + destruct (GetMostRecentDistro_firstGreatest
                  decodeError c1 name catalog1 H1 Hex) as (r1 & -> & Hr1).
      destruct (GetMostRecentDistro_firstGreatest
                  decodeError c2 name catalog2 H2 Hex2) as (r2 & -> & Hr2).
      exists r1, r2. split; [reflexivity|]. split; [reflexivity|].
      pose proof (firstGreatest_In _ _ _ Hr1) as Hin1.
      pose proof (firstGreatest_In _ _ _ Hr2) as Hin2.
      destruct Hr1 as (_ & _ & _ & Hm1 & Hmax1 & _).
      destruct Hr2 as (_ & _ & _ & Hm2 & Hmax2 & _).
      pose proof (Hmax2 r1 (Permutation_in r1 Hperm Hin1) Hm1) as Hle12.
      pose proof (Hmax1 r2 (Permutation_in r2 (Permutation_sym Hperm) Hin2)
                        Hm2) as Hle21.
      rewrite (order.cmp_opp _ semverFacts.Comparator_Compare) in Hle21.
      lia.
    + rewrite (GetMostRecentDistro_per_loop decodeError c1 name catalog1 H1).
      rewrite (GetMostRecentDistro_per_loop decodeError c2 name catalog2 H2).
      apply existsb_exists in Hex2. rewrite Hex1, Hex2.
      exists (last catalog1 zeroDiskImage), (last catalog2 zeroDiskImage).
      auto.
  - right.
    assert (Hnone1 : forall e, In e catalog1 ->
                               strings.Contains (Name e) name = false).
    { intros e He.
      destruct (strings.Contains (Name e) name) eqn:E; [|reflexivity].
      rewrite <- Hex. symmetry. apply existsb_exists. eauto. }
    assert (Hnone2 : forall e, In e catalog2 ->
                               strings.Contains (Name e) name = false).
    { intros e He. apply Hnone1.
      now apply (Permutation_in e (Permutation_sym Hperm)). }
    split.
    + now apply (GetMostRecentDistro_no_match
                   decodeError rule c1 name catalog1 H1).
    + now apply (GetMostRecentDistro_no_match
                   decodeError rule c2 name catalog2 H2).
Qed.

(** X13. When some entry whose name matches has a valid version,
    [GetMostRecentDistro] returns an image.  With a variable per
    iteration its version is valid: a malformed version never wins over
    a well-formed one.  With one variable for the whole loop it is the
    last entry of the catalogue, whatever its version. *)
Theorem GetMostRecentDistro_with_a_valid_match
        (rule : loopVariables) (c : Client) (name : string)
        (catalog : list DiskImage) (e : DiskImage) :
  ListDiskImages decodeError c [] = (catalog, None) ->
  In e catalog ->
  strings.Contains (Name e) name = true ->
  semver.IsValid (Version e) = true ->
  exists r, GetMostRecentDistro decodeError rule c name = (Some r, None)
            /\ match rule with
               | PerIteration => semver.IsValid (Version r) = true
               | PerLoop => r = last catalog zeroDiskImage
               end.
Proof.
  intros Hlist He Hm Hvalid. destruct rule.
  - destruct (GetMostRecentDistro_firstGreatest
                decodeError c name catalog Hlist)
      as (r & Hget & _ & _ & _ & _ & Hmax & _); [eauto|].
    exists r. split; [exact Hget|].
    destruct (semver.IsValid (Version r)) eqn:Hr; [reflexivity|].
    specialize (Hmax e He Hm).
    rewrite (versionFacts.Compare_valid_invalid _ _ Hvalid Hr) in Hmax. lia.
  - rewrite (GetMostRecentDistro_per_loop decodeError c name catalog Hlist).
    assert (Hex : existsb (fun x => strings.Contains (Name x) name) catalog
                  = true) by (apply existsb_exists; eauto).
    rewrite Hex. eauto.
Qed.

(** X14. With the empty string every name matches: on a listed
    catalogue [GetMostRecentDistro] then fails exactly when the
    catalogue is empty, and otherwise returns an entry of the
    catalogue: with a variable per iteration one whose version no
    entry exceeds, with one variable for the whole loop the last
    entry. *)
Theorem GetMostRecentDistro_empty_name
        (rule : loopVariables) (c : Client) (catalog : list DiskImage) :
  ListDiskImages decodeError c [] = (catalog, None) ->
  (catalog = [] ->
   GetMostRecentDistro decodeError rule c ""
   = (None, Some (fmt_Errorf " image not found")))
  /\ (catalog <> [] ->
      exists r, GetMostRecentDistro decodeError rule c "" = (Some r, None)
                /\ In r catalog
                /\ match rule with
                   | PerIteration =>
                       forall e, In e catalog ->
                                 semver.Compare (Version e) (Version r) <= 0
                   | PerLoop => r = last catalog zeroDiskImage
                   end).
Proof.
  intros Hlist. split.
  - intros ->.
    apply (GetMostRecentDistro_no_match decodeError rule c "" [] Hlist).
    intros e [].
  - intros Hne. destruct catalog as [|d l]; [contradiction|].
    destruct rule.
    + destruct (GetMostRecentDistro_firstGreatest
                  decodeError c "" (d :: l) Hlist) as (r & Hget & Hr).
      { exists d. split; [now left | apply stringsFacts.Contains_empty]. }
      exists r. split; [exact Hget|].
      split; [now apply (firstGreatest_In "")|].
      destruct Hr as (_ & _ & _ & _ & Hmax & _).
      intros e He. apply Hmax; [exact He | apply stringsFacts.Contains_empty].
    + rewrite (GetMostRecentDistro_per_loop decodeError c "" (d :: l) Hlist).
      cbn [existsb]. rewrite stringsFacts.Contains_empty. cbn [orb].
      exists (last (d :: l) zeroDiskImage). split; [reflexivity|].
      split; [|reflexivity].
      clear Hlist Hne. revert d. induction l as [|x l IH]; intros d.
      * now left.
      * right. apply (IH x).
Qed.

End SelectorMoreFacts.

(* ================================================================== *)
(** * Further properties: single images, creating and deleting *)

Section SingleImageFacts.

Variable decodeError : error -> option error.

(** [decodeError] returns an error for every error it is given. *)
Hypothesis decodeError_keeps_errors : forall e, decodeError e <> None.

(** X15. [GetDiskImage] never returns an image together with an error;
    an image it returns is the decoding of the object the server sent;
    and it returns neither image nor error exactly when the server
    answered with the JSON value [null]. *)
Theorem GetDiskImage_outcomes (c : Client) (id : string) :
  (forall d err,
      GetDiskImage decodeError c id = (Some d, err) ->
      err = None
      /\ exists o, SendGetRequest c ("/v2/disk_images/" ++ id)
                   = (Object o, None)
                   /\ d = decodeObject o)
  /\ (GetDiskImage decodeError c id = (None, None)
      <-> SendGetRequest c ("/v2/disk_images/" ++ id) = (Null, None)).
Proof.
  unfold GetDiskImage.
  destruct (SendGetRequest c ("/v2/disk_images/" ++ id)) as [resp [e|]].
  - split; [intros d err; discriminate|]. split; [|discriminate].
    intros [= H]. now apply decodeError_keeps_errors in H.
  - destruct resp as [e| |o|os]; simpl; split;
      try (intros d err; discriminate); try (split; discriminate);
      try (split; reflexivity).
    intros d err [= <- <-]. split; [reflexivity|]. now exists o.
Qed.

(** X16. [CreateDiskImage] sends its parameters as they are, without a
    check of its own, in one request to ["/v2/disk_images"]; it never
    returns a response together with an error; a response it returns
    is the decoding of the object the server sent; and it returns
    neither response nor error exactly when the server answered with
    the JSON value [null]. *)
Theorem CreateDiskImage_outcomes
        (c : ClientWrites) (params : option CreateDiskImageParams.t) :
  (forall r err,
      CreateDiskImage decodeError c params = (Some r, err) ->
      err = None
      /\ exists o, SendPostRequest c "/v2/disk_images" params
                   = (CreateObject o, None)
                   /\ r = decodeCreateObject o)
  /\ (CreateDiskImage decodeError c params = (None, None)
      <-> SendPostRequest c "/v2/disk_images" params = (CreateNull, None))
  /\ (forall e, snd (SendPostRequest c "/v2/disk_images" params) = Some e ->
                CreateDiskImage decodeError c params = (None, decodeError e)).
Proof.
  unfold CreateDiskImage.
  destruct (SendPostRequest c "/v2/disk_images" params) as [resp [e|]].
  - split; [intros r err; discriminate|]. split.
    + split; [|discriminate].
      intros [= H]. now apply decodeError_keeps_errors in H.
    + now intros e' [= <-].
  - destruct resp as [e| |o|]; simpl; split;
      try (intros r err; discriminate);
      try (split; [split; discriminate | discriminate]);
      try (split; [split; reflexivity | discriminate]).
    intros r err [= <- <-]. split; [reflexivity|]. now exists o.
Qed.

(** X17. [DeleteDiskImage] never looks at the body of the answer: it
    returns no error exactly when the request itself reported none, and
    otherwise the classified error of the request. *)
Theorem DeleteDiskImage_outcomes (c : ClientWrites) (id : string) :
  (DeleteDiskImage decodeError c id = None
   <-> snd (SendDeleteRequest c ("/v2/disk_images/" ++ id)) = None)
  /\ (forall e,
         snd (SendDeleteRequest c ("/v2/disk_images/" ++ id)) = Some e ->
         DeleteDiskImage decodeError c id = decodeError e)
  /\ (forall c',
         snd (SendDeleteRequest c' ("/v2/disk_images/" ++ id))
         = snd (SendDeleteRequest c ("/v2/disk_images/" ++ id)) ->
         DeleteDiskImage decodeError c' id = DeleteDiskImage decodeError c id).
Proof.
  unfold DeleteDiskImage.
  destruct (SendDeleteRequest c ("/v2/disk_images/" ++ id)) as [body [e|]];
    simpl.
  - split; [split; [|discriminate]|split].
    + intros H. now apply decodeError_keeps_errors in H.
    + now intros e' [= <-].
    + intros c' H. destruct (SendDeleteRequest c' _) as [body' err'].
      simpl in H. now subst err'.
  - split; [split; reflexivity|split].
    + discriminate.
    + intros c' H. destruct (SendDeleteRequest c' _) as [body' err'].
      simpl in H. now subst err'.
Qed.

End SingleImageFacts.

(* ================================================================== *)
(** * Further properties: the numbers of a version *)

Module numerals.

(** The value of a decimal digit. *)
Definition digit (c : ascii) : Z := Z.of_N (N_of_ascii c) - 48.

(** The number a string of decimal digits writes. *)
Fixpoint numeral (x : string) : Z :=
  match x with
  | EmptyString => 0
  | String c r => digit c * 10 ^ Z.of_nat (String.length r) + numeral r
  end.

Fixpoint allDigits (x : string) : bool :=
  match x with
  | EmptyString => true
  | String c r => semver.isDigit c && allDigits r
  end.

(** A decimal numeral as [semver] accepts them: digits only, at least
    one, and no leading zero but for ["0"] itself. *)
Definition canonical (x : string) : bool :=
  match x with
  | EmptyString => false
  | String c r =>
      allDigits x && (negb (Ascii.eqb c "0") || String.eqb r "")
  end.

End numerals.

Module numeralFacts.
Import semver numerals semverFacts.

Lemma isDigit_range (c : ascii) : isDigit c = true -> 0 <= digit c <= 9.
Proof.
  unfold isDigit, digit, Ascii.leb, Ascii.compare. intros H.
  apply andb_true_iff in H as [H1 H2]. simpl N_of_ascii in H1, H2.
  destruct (N.compare_spec 48 (N_of_ascii c)); try discriminate;
    destruct (N.compare_spec (N_of_ascii c) 57); try discriminate; lia.
Qed.

Lemma digit_zero (c : ascii) : digit c = 0 -> c = "0"%char.
Proof.
  unfold digit. intros H.
  assert (E : N_of_ascii c = 48%N) by lia.
  rewrite <- (ascii_N_embedding c), E. reflexivity.
Qed.

Lemma ascii_compare_digit (a b : ascii) :
  Ascii.compare a b = Z.compare (digit a) (digit b).
Proof.
  unfold Ascii.compare, digit.
  rewrite <- N2Z.inj_compare.
  rewrite (Z.compare_sub (Z.of_N (N_of_ascii a))).
  rewrite (Z.compare_sub (Z.of_N (N_of_ascii a) - 48)).
  f_equal. lia.
Qed.

Lemma numeral_range (x : string) :
  allDigits x = true -> 0 <= numeral x < 10 ^ Z.of_nat (String.length x).
Proof.
  induction x as [|c r IH]; [simpl; lia|].
  cbn [numeral allDigits String.length]. intros H.
  apply andb_true_iff in H as [Hc Hr].
  apply isDigit_range in Hc. specialize (IH Hr).
  rewrite Nat2Z.inj_succ, Z.pow_succ_r by lia. nia.
Qed.

(** Digit strings of one length: the bytes decide as the numbers do. *)
Lemma compare_same_length (x y : string) :
  allDigits x = true -> allDigits y = true ->
  String.length x = String.length y ->
  String.compare x y = Z.compare (numeral x) (numeral y).
Proof.
  revert y; induction x as [|a x IH]; intros [|b y]; simpl;
    try discriminate; [reflexivity|].
  intros Hx Hy [= Hlen].
  apply andb_true_iff in Hx as [Ha Hx]. apply andb_true_iff in Hy as [Hb Hy].
  pose proof (isDigit_range a Ha). pose proof (isDigit_range b Hb).
  pose proof (numeral_range x Hx) as Rx.
  pose proof (numeral_range y Hy) as Ry.
  rewrite ascii_compare_digit, (IH y Hx Hy Hlen), Hlen in *.
  set (p := 10 ^ Z.of_nat (String.length y)) in *.
  destruct (Z.compare_spec (digit a) (digit b)) as [E|E|E].
  - rewrite E. symmetry.
    destruct (Z.compare_spec (numeral x) (numeral y));
      [apply Z.compare_eq_iff | apply Z.compare_lt_iff
       | apply Z.compare_gt_iff]; lia.
  - symmetry. apply Z.compare_lt_iff. nia.
  - symmetry. apply Z.compare_gt_iff. nia.
Qed.

(** A canonical numeral with more digits writes a greater number. *)
Lemma numeral_longer (x y : string) :
  canonical x = true -> canonical y = true ->
  (String.length x < String.length y)%nat ->
  numeral x < numeral y.
Proof.
  destruct x as [|a x]; [discriminate|].
  destruct y as [|b y]; [discriminate|].
  unfold canonical. intros Hx Hy Hlen.
  apply andb_true_iff in Hx as [Hx _]. apply andb_true_iff in Hy as [Hy Hb0].
  pose proof (numeral_range _ Hx) as Rx.
  cbn [allDigits] in Hy. apply andb_true_iff in Hy as [Hb Hy].
  pose proof (isDigit_range b Hb) as Rb.
  pose proof (numeral_range y Hy) as Ry.
  assert (Hb1 : 1 <= digit b).
  { destruct (Z.eq_dec (digit b) 0) as [E|E]; [|lia].
    apply digit_zero in E. subst b. simpl in Hb0.
    apply String.eqb_eq in Hb0. subst y. simpl in Hlen. lia. }
  cbn [numeral String.length] in *.
  assert (Hpow : 10 ^ Z.of_nat (S (String.length x))
                 <= 10 ^ Z.of_nat (String.length y))
    by (apply Z.pow_le_mono_r; lia).
  assert (Hpos : 0 < 10 ^ Z.of_nat (String.length y))
    by (apply Z.pow_pos_nonneg; lia).
  assert (Hmul : 10 ^ Z.of_nat (String.length y)
                 <= digit b * 10 ^ Z.of_nat (String.length y)) by nia.
  lia.
Qed.

Lemma canonical_allDigits (x : string) :
  canonical x = true -> allDigits x = true.
Proof.
  destruct x; [discriminate|]. unfold canonical.
  intros H. now apply andb_true_iff in H as [H _].
Qed.

Lemma allDigits_scan (r : string) :
  allDigits (sliceTo (scanWhile isDigit r 0) r) = true.
Proof.
  induction r as [|c r IH]; simpl; [reflexivity|].
  destruct (isDigit c) eqn:Hc; [|reflexivity].
  rewrite scanWhile_shift. simpl. now rewrite Hc.
Qed.

(** [parseInt] accepts canonical numerals only. *)
Lemma parseInt_canonical (v t rest : string) :
  parseInt v = Some (t, rest) -> canonical t = true.
Proof.
  unfold parseInt. destruct v as [|c0 v]; [discriminate|].
  destruct (isDigit c0) eqn:Hc0; [|discriminate]. cbn [negb sliceFrom].
  rewrite scanWhile_shift.
  destruct (Ascii.eqb c0 "0" && _) eqn:Hz; [discriminate|].
  intros [= <- _]. cbn [sliceTo canonical allDigits].
  rewrite Hc0, allDigits_scan. cbn [andb].
  apply andb_false_iff in Hz as [Hz|Hz]; [now rewrite Hz|].
  apply negb_false_iff, Nat.eqb_eq in Hz. injection Hz as Hz.
  rewrite Hz. destruct v; simpl; apply orb_true_r.
Qed.

Lemma parseSuffix_fields (ma mi pa v : string) (p : parsed) :
  parseSuffix ma mi pa v = Some p ->
  major p = ma /\ minor p = mi /\ patch p = pa.
Proof.
  unfold parseSuffix.
  destruct (if startsWith "-" v then _ else _) as [[pre v1]|];
    [|discriminate].
  destruct (if startsWith "+" v1 then _ else _) as [[b v2]|];
    [|discriminate].
  destruct (negb (String.eqb v2 "")); [discriminate|].
  intros [= <-]. auto.
Qed.

(** The three numbers [parse] reads are canonical numerals. *)
Lemma parse_canonical (v : string) (p : parsed) :
  parse v = Some p ->
  canonical (major p) = true /\ canonical (minor p) = true
  /\ canonical (patch p) = true.
Proof.
  unfold parse. destruct v as [|c0 v]; [discriminate|].
  destruct (negb (Ascii.eqb c0 "v")); [discriminate|].
  destruct (parseInt _) as [[ma v1]|] eqn:H1; [|discriminate].
  apply parseInt_canonical in H1.
  destruct (String.eqb v1 ""); [intros [= <-]; auto|].
  destruct (negb (startsWith "." v1)); [discriminate|].
  destruct (parseInt _) as [[mi v2]|] eqn:H2; [|discriminate].
  apply parseInt_canonical in H2.
  destruct (String.eqb v2 ""); [intros [= <-]; auto|].
  destruct (negb (startsWith "." v2)); [discriminate|].
  destruct (parseInt _) as [[pa v3]|] eqn:H3; [|discriminate].
  apply parseInt_canonical in H3.
  intros H. apply parseSuffix_fields in H as (-> & -> & ->). auto.
Qed.

End numeralFacts.

(** X18. On the numbers of valid versions [compareInt], which looks at
    lengths and bytes only, decides as the numbers themselves: [parse]
    leaves canonical decimal numerals in the major, minor and patch
    fields, and on two canonical numerals [compareInt] is the sign of
    the difference of the numbers they write. *)
Theorem compareInt_compares_numbers (v w : string) (pv pw : semver.parsed) :
  semver.parse v = Some pv ->
  semver.parse w = Some pw ->
  semver.compareInt (semver.major pv) (semver.major pw)
  = Z.sgn (numerals.numeral (semver.major pv)
           - numerals.numeral (semver.major pw))
  /\ semver.compareInt (semver.minor pv) (semver.minor pw)
     = Z.sgn (numerals.numeral (semver.minor pv)
              - numerals.numeral (semver.minor pw))
  /\ semver.compareInt (semver.patch pv) (semver.patch pw)
     = Z.sgn (numerals.numeral (semver.patch pv)
              - numerals.numeral (semver.patch pw)).
Proof.
  intros Hv Hw.
  assert (H : forall x y,
             numerals.canonical x = true -> numerals.canonical y = true ->
             semver.compareInt x y
             = Z.sgn (numerals.numeral x - numerals.numeral y)).
  { intros x y Hx Hy. unfold semver.compareInt.
    destruct (String.eqb_spec x y) as [->|Hne].
    - now rewrite Z.sub_diag.
    - destruct (Nat.ltb_spec (String.length x) (String.length y)) as [L|L].
      + pose proof (numeralFacts.numeral_longer x y Hx Hy L).
        symmetry. apply Z.sgn_neg. lia.
      + destruct (Nat.ltb_spec (String.length y) (String.length x))
          as [L'|L'].
        * pose proof (numeralFacts.numeral_longer y x Hy Hx L').
          symmetry. apply Z.sgn_pos. lia.
        * assert (Hlen : String.length x = String.length y) by lia.
          pose proof (numeralFacts.compare_same_length x y
                        (numeralFacts.canonical_allDigits x Hx)
                        (numeralFacts.canonical_allDigits y Hy) Hlen) as Hc.
          unfold semver.strLess, String.ltb. rewrite Hc.
          destruct (Z.compare_spec (numerals.numeral x) (numerals.numeral y))
            as [E|E|E].
          -- exfalso. apply Hne. now apply String.compare_eq_iff.
          -- symmetry. apply Z.sgn_neg. lia.
          -- symmetry. apply Z.sgn_pos. lia. }
  destruct (numeralFacts.parse_canonical v pv Hv) as (V1 & V2 & V3).
  destruct (numeralFacts.parse_canonical w pw Hw) as (W1 & W2 & W3).
  repeat split; now apply H.
Qed.

(* ================================================================== *)
(** * Further properties: searches that match nothing *)

Section ZeroMatchesFacts.

Variable decodeError : error -> option error.

(** After the zero-matches error nothing in the catalogue has the
    search string inside. *)
Lemma zero_matches_inv (c : Client) (search : string)
      (catalog : list DiskImage) (r : option DiskImage) (inner : error) :
  ListDiskImages decodeError c [] = (catalog, None) ->
  Z.of_nat (List.length catalog) <= maxInt ->
  FindDiskImage decodeError c search
  = (r, Some (wrapError ZeroMatchesError inner)) ->
  forall e, In e catalog -> isPartial search e = false.
Proof.
  intros Hlist Hlen Hfind.
  destruct (existsb (isExact search) catalog) eqn:Hex.
  - apply existsb_exists in Hex.
    destruct (FindDiskImage_exact_success decodeError c search catalog
                Hlist Hex) as (d & _ & _ & Hd).
    rewrite Hd in Hfind. discriminate.
  - assert (Hno : forall e, In e catalog -> isExact search e = false).
    { intros e He. destruct (isExact search e) eqn:E; [|reflexivity].
      rewrite <- Hex. symmetry. apply existsb_exists. eauto. }
    rewrite (FindDiskImage_by_count decodeError c search catalog
               Hlist Hlen Hno) in Hfind.
    cbn zeta in Hfind.
    destruct (filter (isPartial search) catalog) as [|a l] eqn:Hf.
    + intros e He. destruct (isPartial search e) eqn:Hp; [|reflexivity].
      assert (Hin : In e (filter (isPartial search) catalog))
        by (apply filter_In; auto).
      rewrite Hf in Hin. destruct Hin.
    + exfalso. destruct (_ =? 1) eqn:E1; [discriminate|].
      destruct (_ >? 1) eqn:E2; [discriminate|].
      apply Z.eqb_neq in E1.
      rewrite Z.gtb_ltb in E2. apply Z.ltb_ge in E2.
      cbn [List.length] in E1, E2. lia.
Qed.

(** X19. A search that matched nothing matches nothing when
    lengthened: after the zero-matches error for a search string,
    [FindDiskImage] answers with the zero-matches error for every
    string that has it inside. *)
Theorem FindDiskImage_zero_matches_for_longer_searches
        (c : Client) (search longer : string) (catalog : list DiskImage)
        (r : option DiskImage) (inner : error) :
  ListDiskImages decodeError c [] = (catalog, None) ->
  Z.of_nat (List.length catalog) <= maxInt ->
  FindDiskImage decodeError c search
  = (r, Some (wrapError ZeroMatchesError inner)) ->
  strings.Contains longer search = true ->
  FindDiskImage decodeError c longer
  = (None,
     Some (wrapError ZeroMatchesError
             (fmt_Errorf ("unable to find " ++ longer ++ ", zero matches")))).
Proof.
  intros Hlist Hlen Hfind Hlonger.
  pose proof (zero_matches_inv c search catalog r inner Hlist Hlen Hfind)
    as Hnone.
  assert (Hnone' : forall e, In e catalog -> isPartial longer e = false).
  { intros e He. specialize (Hnone e He).
    apply isPartial_false in Hnone as [Hn Hi]. apply isPartial_false.
    split.
    - destruct (strings.Contains (Name e) longer) eqn:E; [|reflexivity].
      pose proof (substringFacts.Contains_trans _ _ _ E Hlonger). congruence.
    - destruct (strings.Contains (ID e) longer) eqn:E; [|reflexivity].
      pose proof (substringFacts.Contains_trans _ _ _ E Hlonger). congruence. }
  assert (Hno : forall e, In e catalog -> isExact longer e = false).
  { intros e He. destruct (isExact longer e) eqn:E; [|reflexivity].
    apply exact_is_partial in E. rewrite (Hnone' e He) in E. discriminate. }
  rewrite (FindDiskImage_by_count decodeError c longer catalog Hlist Hlen Hno).
  now rewrite (filter_none (isPartial longer) catalog Hnone').
Qed.

End ZeroMatchesFacts.

(* ================================================================== *)
(** * The further properties on concrete inputs *)

(** A client that serves [ubuntuObjects] as the default catalogue and
    fails on every other request. *)
Definition defaultOnly : Client :=
  mkClient (fun url =>
              if String.eqb url "/v2/disk_images"
              then (Array ubuntuObjects, None)
              else (Null, Some (transportError "connection refused"))).

(** A client whose answers are not JSON. *)
Definition garbled : Client :=
  mkClient (fun _ =>
              (Undecodable (jsonSyntaxError "unexpected end of JSON input"),
               None)).

(** A client that answers every creation with the object [o] and
    refuses every deletion. *)
Definition creating (o : jsonCreateResponse) : ClientWrites :=
  mkClientWrites
    (fun _ _ => (CreateObject o, None))
    (fun _ => ([], Some (transportError "forbidden"))).

Definition createdObject : jsonCreateResponse :=
  mkJsonCreateResponse (Some "id-new") (Some "custom") None None None None
                       (Some "pending") None (Some "https://upload") None
                       None None None None None.

Lemma lookups_read_the_default_catalogue_only_witness :
  FindDiskImage Some (serving ubuntuObjects) "alpine"
  = FindDiskImage Some defaultOnly "alpine"
  /\ GetDiskImageByName Some (serving ubuntuObjects) "alpine"
     = GetDiskImageByName Some defaultOnly "alpine"
  /\ GetMostRecentDistro Some PerLoop (serving ubuntuObjects) "alpine"
     = GetMostRecentDistro Some PerLoop defaultOnly "alpine".
Proof.
  apply (lookups_read_the_default_catalogue_only
           Some PerLoop (serving ubuntuObjects) defaultOnly "alpine").
  reflexivity.
Defined.

Lemma lookups_classify_the_listing_error_witness :
  FindDiskImage (fun e => Some (wrapError ZeroMatchesError e)) garbled "x"
  = (None,
     Some (wrapError ZeroMatchesError
             (jsonSyntaxError "unexpected end of JSON input")))
  /\ fst (ListDiskImages (fun e => Some (wrapError ZeroMatchesError e))
                         garbled []) = []
  /\ snd (ListDiskImages (fun e => Some (wrapError ZeroMatchesError e))
                         garbled [])
     = Some (jsonSyntaxError "unexpected end of JSON input").
Proof.
  split; [|split; reflexivity].
  apply (lookups_classify_the_listing_error
           (fun e => Some (wrapError ZeroMatchesError e)) PerLoop garbled "x"
           (jsonSyntaxError "unexpected end of JSON input")).
  reflexivity.
Defined.

Lemma FindDiskImage_returns_a_matching_entry_witness :
  In (image "id-alpine" "alpine-3" "v3.0.0")
     (fst (ListDiskImages Some (serving ubuntuObjects) []))
  /\ strings.Contains (Name (image "id-alpine" "alpine-3" "v3.0.0")) "k3s"
     = false.
Proof.
  destruct (FindDiskImage_returns_a_matching_entry
              Some (serving ubuntuObjects) "alpine"
              (image "id-alpine" "alpine-3" "v3.0.0") None eq_refl)
    as (_ & Hin & _ & Hk & _).
  split; assumption.
Defined.

Lemma FindDiskImage_errors_describe_the_catalogue_witness :
  (forall e, In e (map decodeObject debianObjects) ->
             strings.Contains (Name e) "freebsd" = false
             /\ strings.Contains (ID e) "freebsd" = false)
  /\ (2 <= List.length (filter (isPartial "deb")
                               (map decodeObject debianObjects)))%nat.
Proof.
  split.
  - apply (proj1 (FindDiskImage_errors_describe_the_catalogue
                    Some (serving debianObjects) "freebsd"
                    (map decodeObject debianObjects) None
                    (fmt_Errorf "unable to find freebsd, zero matches")
                    eq_refl ltac:(unfold maxInt; simpl; lia))).
    reflexivity.
  - apply (proj2 (FindDiskImage_errors_describe_the_catalogue
                    Some (serving debianObjects) "deb"
                    (map decodeObject debianObjects) None
                    (fmt_Errorf
                       "unable to find deb because there were multiple matches")
                    eq_refl ltac:(unfold maxInt; simpl; lia))).
    reflexivity.
Defined.

Lemma lookups_find_a_listed_entry_again_witness :
  FindDiskImage Some (serving ubuntuObjects) "id-focal"
  = (Some (image "id-focal" "ubuntu-focal" "v20.4.0"), None)
  /\ FindDiskImage Some (serving ubuntuObjects) "ubuntu-focal"
     = (Some (image "id-focal" "ubuntu-focal" "v20.4.0"), None)
  /\ GetDiskImageByName Some (serving ubuntuObjects) "ubuntu-focal"
     = (Some (image "id-focal" "ubuntu-focal" "v20.4.0"), None).
Proof.
  destruct (lookups_find_a_listed_entry_again
              Some (serving ubuntuObjects)
              (fst (ListDiskImages Some (serving ubuntuObjects) []))
              [image "id-bionic" "ubuntu-bionic" "v18.4.0"]
              [image "id-alpine" "alpine-3" "v3.0.0"]
              (image "id-focal" "ubuntu-focal" "v20.4.0")
              eq_refl eq_refl) as [HID HName].
  split.
  - apply HID. intros e He. each_entry He; split; differ.
  - apply HName. intros e He. each_entry He; split; differ.
Defined.

Lemma GetDiskImageByName_success_implies_FindDiskImage_success_witness :
  exists d', FindDiskImage Some (serving debianObjects) "debian"
             = (Some d', None)
             /\ (Name d' = "debian" \/ ID d' = "debian").
Proof.
  apply (GetDiskImageByName_success_implies_FindDiskImage_success
           Some (serving debianObjects) "debian"
           (image "id-a" "debian" "v1.2.0") None).
  reflexivity.
Defined.

Lemma reserved_names_are_never_found_witness :
  GetDiskImageByName Some (serving ubuntuObjects) "k3s-v1.2"
  = (None, Some (errors_New "diskimage not found"))
  /\ GetMostRecentDistro Some PerLoop (serving ubuntuObjects) "k3s-v1.2"
     = (None, Some (fmt_Errorf "k3s-v1.2 image not found")).
Proof.
  apply (reserved_names_are_never_found
           Some PerLoop (serving ubuntuObjects) "k3s-v1.2"
           (fst (ListDiskImages Some (serving ubuntuObjects) []))).
  - reflexivity.
  - left. reflexivity.
Defined.

Lemma Compare_zero_iff_same_fields_witness :
  semver.Compare "v1.10" "v1.10.0+build.7" = 0.
Proof.
  apply (Compare_zero_iff_same_fields
           "v1.10" "v1.10.0+build.7"
           (semver.mkParsed "1" "10" "0" ".0" "" "")
           (semver.mkParsed "1" "10" "0" "" "" "+build.7")
           eq_refl eq_refl).
  repeat split.
Defined.

Lemma GetMostRecentDistro_on_permuted_catalogues_witness :
  ((exists r1 r2,
       GetMostRecentDistro Some PerIteration (serving debianObjects) "debian"
       = (Some r1, None)
       /\ GetMostRecentDistro Some PerIteration
                              (serving (rev debianObjects)) "debian"
          = (Some r2, None)
       /\ semver.Compare (Version r1) (Version r2) = 0)
   \/ (GetMostRecentDistro Some PerIteration (serving debianObjects) "debian"
       = (None, Some (fmt_Errorf ("debian" ++ " image not found")))
       /\ GetMostRecentDistro Some PerIteration
                              (serving (rev debianObjects)) "debian"
          = (None, Some (fmt_Errorf ("debian" ++ " image not found")))))
  /\ ((exists r1 r2,
          GetMostRecentDistro Some PerLoop (serving debianObjects) "debian"
          = (Some r1, None)
          /\ GetMostRecentDistro Some PerLoop
                                 (serving (rev debianObjects)) "debian"
             = (Some r2, None)
          /\ r1 = last (map decodeObject debianObjects) zeroDiskImage
          /\ r2 = last (rev (map decodeObject debianObjects)) zeroDiskImage)
      \/ (GetMostRecentDistro Some PerLoop (serving debianObjects) "debian"
          = (None, Some (fmt_Errorf ("debian" ++ " image not found")))
          /\ GetMostRecentDistro Some PerLoop
                                 (serving (rev debianObjects)) "debian"
             = (None, Some (fmt_Errorf ("debian" ++ " image not found"))))).
Proof.
  split.
  - apply (GetMostRecentDistro_on_permuted_catalogues
             Some PerIteration
             (serving debianObjects) (serving (rev debianObjects)) "debian"
             (map decodeObject debianObjects)
             (rev (map decodeObject debianObjects)));
      [reflexivity | reflexivity | apply Permutation_rev].
  - apply (GetMostRecentDistro_on_permuted_catalogues
             Some PerLoop
             (serving debianObjects) (serving (rev debianObjects)) "debian"
             (map decodeObject debianObjects)
             (rev (map decodeObject debianObjects)));
      [reflexivity | reflexivity | apply Permutation_rev].
Defined.

Lemma GetMostRecentDistro_with_a_valid_match_witness :
  (exists r,
      GetMostRecentDistro Some PerIteration
        (serving (debianObjects ++ [imageObject "id-x" "debian-x" "10"]))
        "debian" = (Some r, None)
      /\ semver.IsValid (Version r) = true)
  /\ (exists r,
         GetMostRecentDistro Some PerLoop
           (serving (debianObjects ++ [imageObject "id-x" "debian-x" "10"]))
           "debian" = (Some r, None)
         /\ r = last (map decodeObject
                          (debianObjects
                           ++ [imageObject "id-x" "debian-x" "10"]))
                     zeroDiskImage).
Proof.
  split.
  - apply (GetMostRecentDistro_with_a_valid_match
             Some PerIteration
             (serving (debianObjects ++ [imageObject "id-x" "debian-x" "10"]))
             "debian"
             (map decodeObject
                  (debianObjects ++ [imageObject "id-x" "debian-x" "10"]))
             (image "id-a" "debian" "v1.2.0"));
      [reflexivity | simpl; auto | reflexivity | reflexivity].
  - apply (GetMostRecentDistro_with_a_valid_match
             Some PerLoop
             (serving (debianObjects ++ [imageObject "id-x" "debian-x" "10"]))
             "debian"
             (map decodeObject
                  (debianObjects ++ [imageObject "id-x" "debian-x" "10"]))
             (image "id-a" "debian" "v1.2.0"));
      [reflexivity | simpl; auto | reflexivity | reflexivity].
Defined.

Lemma GetMostRecentDistro_empty_name_witness :
  GetMostRecentDistro Some PerLoop (serving []) ""
  = (None, Some (fmt_Errorf " image not found"))
  /\ (exists r,
         GetMostRecentDistro Some PerIteration (serving debianObjects) ""
         = (Some r, None)
         /\ In r (map decodeObject debianObjects)
         /\ forall e, In e (map decodeObject debianObjects) ->
                      semver.Compare (Version e) (Version r) <= 0)
  /\ (exists r,
         GetMostRecentDistro Some PerLoop (serving debianObjects) ""
         = (Some r, None)
         /\ In r (map decodeObject debianObjects)
         /\ r = last (map decodeObject debianObjects) zeroDiskImage).
Proof.
  split; [|split].
  - apply (proj1 (GetMostRecentDistro_empty_name
                    Some PerLoop (serving []) [] eq_refl)).
    reflexivity.
  - apply (proj2 (GetMostRecentDistro_empty_name
                    Some PerIteration (serving debianObjects)
                    (map decodeObject debianObjects) eq_refl)).
    discriminate.
  - apply (proj2 (GetMostRecentDistro_empty_name
                    Some PerLoop (serving debianObjects)
                    (map decodeObject debianObjects) eq_refl)).
    discriminate.
Defined.

Lemma Some_keeps_errors : forall e : error, Some e <> None.
Proof. intros e H. discriminate H. Defined.

Lemma GetDiskImage_outcomes_witness :
  GetDiskImage Some (mkClient (fun _ => (Null, None))) "x" = (None, None).
Proof.
  apply (proj2 (GetDiskImage_outcomes
                  Some Some_keeps_errors
                  (mkClient (fun _ => (Null, None))) "x")).
  reflexivity.
Defined.

Lemma CreateDiskImage_outcomes_witness :
  exists o,
    SendPostRequest (creating createdObject) "/v2/disk_images" None
    = (CreateObject o, None)
    /\ decodeCreateObject createdObject = decodeCreateObject o.
Proof.
  apply (proj1 (CreateDiskImage_outcomes
                  Some Some_keeps_errors (creating createdObject) None)
               (decodeCreateObject createdObject) None).
  reflexivity.
Defined.

Lemma DeleteDiskImage_outcomes_witness :
  DeleteDiskImage Some (creating createdObject) "id-new"
  = Some (transportError "forbidden").
Proof.
  apply (proj1 (proj2 (DeleteDiskImage_outcomes
                         Some Some_keeps_errors
                         (creating createdObject) "id-new"))).
  reflexivity.
Defined.

Lemma compareInt_compares_numbers_witness :
  semver.compareInt "1" "1" = Z.sgn (numerals.numeral "1" - numerals.numeral "1")
  /\ semver.compareInt "2" "10"
     = Z.sgn (numerals.numeral "2" - numerals.numeral "10")
  /\ semver.compareInt "0" "0"
     = Z.sgn (numerals.numeral "0" - numerals.numeral "0").
Proof.
  apply (compareInt_compares_numbers
           "v1.2.0" "v1.10.0"
           (semver.mkParsed "1" "2" "0" "" "" "")
           (semver.mkParsed "1" "10" "0" "" "" "")
           eq_refl eq_refl).
Defined.

Lemma FindDiskImage_zero_matches_for_longer_searches_witness :
  FindDiskImage Some (serving debianObjects) "freebsd-14"
  = (None,
     Some (wrapError ZeroMatchesError
             (fmt_Errorf "unable to find freebsd-14, zero matches"))).
Proof.
  apply (FindDiskImage_zero_matches_for_longer_searches
           Some (serving debianObjects) "freebsd" "freebsd-14"
           (map decodeObject debianObjects) None
           (fmt_Errorf "unable to find freebsd, zero matches")).
  - reflexivity.
  - unfold maxInt. simpl. lia.
  - reflexivity.
  - reflexivity.
Defined.
